(** * PyReduce: the wrappers around the slit-function decomposition kernels

    A shallow embedding of [pyreduce/cwrappers.py]: the two entry points
    [slitfunc] (straight orders) and [slitfunc_curved] (curved orders), which
    sanitise their arguments, prepare the arrays and hand them to the native
    kernels [slit_func_vert] and [slit_func_curved].

    - A C double (dtype [c_double]) is a binary64 number: Rocq's primitive
      [float], with its own arithmetic, NaN and infinities.
    - A C int is a [Z]; casts to it are written out.
    - A one-dimensional array is a list, a two-dimensional array a list of
      rows.
    - An exception is a value of [result].
    - The native kernels are not part of the Python sources.  They are taken as
      parameters: a kernel reads the arrays it is handed and decides the content
      of every cell of its output buffers; it cannot change their shapes. *)

From Stdlib Require Import ZArith List Bool Lia.
From Stdlib Require Import Floats.
From Stdlib Require String.
Import ListNotations.

Set Implicit Arguments.

(** ** Exceptions *)

Inductive exn : Type :=
| AssertionError   (* a failed [assert]: the validation error *)
| ValueError       (* NumPy: reduction of an empty array, int() of NaN *)
| OverflowError.   (* int() of an infinity *)

Inductive result (A : Type) : Type :=
| Ok (a : A)
| Raise (e : exn).

Arguments Ok {A} a.
Arguments Raise {A} e.

Definition bind {A B : Type} (r : result A) (k : A -> result B) : result B :=
  match r with
  | Ok a => k a
  | Raise e => Raise e
  end.

Notation "x <- r ;; k" := (bind r (fun x => k))
  (at level 61, r at next level, right associativity).

(** [assert c] *)
Definition assert (c : bool) : result unit :=
  if c then Ok tt else Raise AssertionError.

Notation "'assert!' c ;; k" := (bind (assert c) (fun _ => k))
  (at level 61, c at next level, right associativity).

Definition is_ok {A : Type} (r : result A) : bool :=
  match r with Ok _ => true | Raise _ => false end.

(** ** Doubles and C ints *)

Definition zero : float := 0%float.

(** [np.isfinite] on a double. *)
Definition isfinite (x : float) : bool := PrimFloat.is_finite x.

(** The exact integer part (truncation toward zero) of a finite double with
    mantissa [m], exponent [e] and sign [s]. *)
Definition trunc_mag (m : positive) (e : Z) : Z :=
  if (0 <=? e)%Z then (Z.pos m * 2 ^ e)%Z else (Z.pos m / 2 ^ (- e))%Z.

Definition INT_MIN : Z := (- 2 ^ 31)%Z.
Definition INT_MAX : Z := (2 ^ 31 - 1)%Z.

(** [x.astype(c_int)]: the C conversion of a double to a 32-bit int truncates
    toward zero.  A value that does not fit (or a NaN) has no defined result in
    C; the conversion instruction of x86-64 yields [INT_MIN] then. *)
Definition astype_c_int (x : float) : Z :=
  match Prim2SF x with
  | S754_zero _ => 0%Z
  | S754_finite s m e =>
      let v := if s then (- trunc_mag m e)%Z else trunc_mag m e in
      if ((INT_MIN <=? v) && (v <=? INT_MAX))%Z then v else INT_MIN
  | _ => INT_MIN
  end.

(** [ffi.cast("int", n)] of a Python int: reduction modulo [2^32]. *)
Definition cast_int (n : Z) : Z :=
  ((n + 2 ^ 31) mod 2 ^ 32 - 2 ^ 31)%Z.

(** The double nearest to an integer (the conversion NumPy inserts when an
    integer array meets a double array).  Exact below [2^53]; the integers
    here are 32- or 64-bit, so their magnitude is within [of_uint63]'s range. *)
Definition float_of_Z (z : Z) : float :=
  if (z <? 0)%Z then (- of_uint63 (Uint63.of_Z (- z)))%float
  else of_uint63 (Uint63.of_Z z).

Definition float_of_nat (n : nat) : float := float_of_Z (Z.of_nat n).

(** The least integer that is not below the magnitude [m * 2^e]. *)
Definition ceil_mag (m : positive) (e : Z) : Z :=
  if (0 <=? e)%Z then (Z.pos m * 2 ^ e)%Z
  else (- ((- Z.pos m) / 2 ^ (- e)))%Z.

(** [int(np.ceil(x))]: [int] raises on NaN and on the infinities. *)
Definition int_ceil (x : float) : result Z :=
  match Prim2SF x with
  | S754_zero _ => Ok 0%Z
  | S754_finite s m e =>
      Ok (if s then (- trunc_mag m e)%Z else ceil_mag m e)
  | S754_infinity _ => Raise OverflowError
  | S754_nan => Raise ValueError
  end.

(** ** Arrays *)

Definition get1 (l : list float) (i : nat) : float := nth i l zero.

Definition get2 {A : Type} (d : A) (M : list (list A)) (r c : nat) : A :=
  nth c (nth r M []) d.

(** An elementwise operation on two arrays of one shape. *)
Fixpoint zipWith {A B C : Type} (f : A -> B -> C) (l : list A) (l' : list B)
  : list C :=
  match l, l' with
  | a :: t, b :: t' => f a b :: zipWith f t t'
  | _, _ => []
  end.

Definition zipWith2 {A B C : Type} (f : A -> B -> C)
  (M : list (list A)) (N : list (list B)) : list (list C) :=
  zipWith (zipWith f) M N.

(** A buffer of [n] cells (of [nr] times [nc] cells) whose cell [i] holds
    [f i]. *)
Definition fill1 {A : Type} (n : nat) (f : nat -> A) : list A :=
  map f (seq 0 n).

Definition fill2 {A : Type} (nr nc : nat) (f : nat -> nat -> A)
  : list (list A) :=
  map (fun r => map (f r) (seq 0 nc)) (seq 0 nr).

(** Every row of [M] has [nc] entries. *)
Definition rectangular {A : Type} (nc : nat) (M : list (list A)) : Prop :=
  Forall (fun row => length row = nc) M.

(** [sl[:, None] * sp[None, :]] and [np.einsum("i,j", a, b)]. *)
Definition outer (a b : list float) : list (list float) :=
  map (fun x => map (fun y => (x * y)%float) b) a.

(** [np.arange(a, b)] on integers. *)
Definition arange (a b : Z) : list Z :=
  map (fun k => (a + Z.of_nat k)%Z) (seq 0 (Z.to_nat (b - a))).

(** ** NumPy and SciPy reductions

    The reductions add from left to right, starting from zero.  (NumPy groups
    the additions of long arrays differently; no statement below depends on the
    grouping.) *)

Definition np_sum (l : list float) : float := fold_left PrimFloat.add l zero.

Definition column (M : list (list float)) (j : nat) : list float :=
  map (fun row => get1 row j) M.

(** [np.sum(img, axis=0)] for an image with [nc] columns. *)
Definition sum_axis0 (nc : nat) (M : list (list float)) : list float :=
  fill1 nc (fun j => np_sum (column M j)).

Fixpoint insert_sorted (x : float) (l : list float) : list float :=
  match l with
  | [] => [x]
  | y :: t => if (x <=? y)%float then x :: l else y :: insert_sorted x t
  end.

Definition sort (l : list float) : list float := fold_right insert_sorted [] l.

(** [np.median] of a one-dimensional array: NaN when it is empty or holds a
    NaN, else the middle of the sorted values (the mean of the two in the
    middle when their number is even). *)
Definition np_median (l : list float) : float :=
  let n := length l in
  if existsb PrimFloat.is_nan l then nan
  else
    let s := sort l in
    match n with
    | O => nan
    | _ => if Nat.even n
           then ((get1 s (n / 2 - 1) + get1 s (n / 2)) / 2)%float
           else get1 s (n / 2)
    end.

(** The index that the boundary mode [reflect] of [scipy.ndimage] gives to a
    position outside of [0 .. n-1]: (d c b a | a b c d | d c b a). *)
Definition reflect (n : nat) (i : Z) : nat :=
  let p := (2 * Z.of_nat n)%Z in
  let m := (i mod p)%Z in
  Z.to_nat (if (m <? Z.of_nat n)%Z then m else (p - 1 - m)%Z).

(** [median_filter(sp, 5, output=sp)]: every entry becomes the median of the
    five entries around it.  SciPy filters into a temporary array when input
    and output are one array. *)
Definition median_filter5 (l : list float) : list float :=
  let n := length l in
  fill1 n (fun i =>
    get1 (sort (map (fun k => get1 l (reflect n (Z.of_nat i + k)))
                    [-2; -1; 0; 1; 2]%Z)) 2).

Definition np_mean (l : list float) : float :=
  (np_sum l / float_of_nat (length l))%float.

(** [a.std()]: the root of the mean squared deviation from the mean. *)
Definition np_std (l : list float) : float :=
  let mu := np_mean l in
  sqrt (np_sum (map (fun x => ((x - mu) * (x - mu))%float) l)
        / float_of_nat (length l)).

(** [np.maximum]: the larger of two doubles, NaN when either is NaN. *)
Definition np_maximum (a b : float) : float :=
  if PrimFloat.is_nan a then a
  else if PrimFloat.is_nan b then b
  else if (a <? b)%float then b else a.

(** [np.max]: raises on an empty array. *)
Definition np_max (l : list float) : result float :=
  match l with
  | [] => Raise ValueError
  | x :: t => Ok (fold_left np_maximum t x)
  end.

(** [np.min] on C ints. *)
Definition np_min (l : list Z) : result Z :=
  match l with
  | [] => Raise ValueError
  | x :: t => Ok (fold_left Z.min t x)
  end.

(** [a[:k] = v] and [a[-k:] = v] for [k > 0]: a slice longer than the array
    covers all of it. *)
Definition assign_head (k : nat) (v : float) (l : list float) : list float :=
  repeat v (Nat.min k (length l)) ++ skipn k l.

Definition assign_tail (k : nat) (v : float) (l : list float) : list float :=
  firstn (length l - k) l ++ repeat v (Nat.min k (length l)).

(** ** The image argument

    [img] is array-like: a plain array or a [numpy.ma] masked array (its mask
    is true where a pixel is masked out).  [np.asanyarray(img, dtype=c_double)]
    returns the caller's object itself when that already is an array of
    doubles; then the wrapper works on the memory of the caller.  Any other
    input is converted into a fresh array. *)
Record image : Type := {
  img_data : list (list float);          (* the pixel values, row by row *)
  img_ncols : nat;                       (* img.shape[1] *)
  img_mask : option (list (list bool));  (* the mask of a masked array *)
  img_is_double : bool                   (* dtype is float64 already *)
}.

Definition img_nrows (img : image) : nat := length (img_data img).

(** The shape of a well-formed image: [nrows] rows of [ncols] pixels, and a
    mask, if any, of the same shape. *)
Definition wf_image (img : image) : Prop :=
  rectangular (img_ncols img) (img_data img) /\
  match img_mask img with
  | Some m => length m = img_nrows img /\ rectangular (img_ncols img) m
  | None => True
  end.

(** [np.ma.getmaskarray(img)] *)
Definition getmaskarray (img : image) : list (list bool) :=
  match img_mask img with
  | Some m => m
  | None => fill2 (img_nrows img) (img_ncols img) (fun _ _ => false)
  end.

(** [a[mask] = 0] *)
Definition zero_where (mask : list (list bool)) (a : list (list float))
  : list (list float) :=
  zipWith2 (fun (m : bool) v => if m then zero else v) mask a.

(** [ycen - ycen.astype(c_int)] *)
Definition fractional (y : float) : float :=
  (y - float_of_Z (astype_c_int y))%float.

(** ** The straight path: what [slitfunc] hands to [slit_func_vert] *)

Record vert_in : Type := {
  vi_ncols : Z;
  vi_nrows : Z;
  vi_im : list (list float);
  vi_pix_unc : list (list float);
  vi_mask : list (list Z);
  vi_ycen : list float;
  vi_osample : Z;
  vi_lambda_sp : float;
  vi_lambda_sf : float;
  vi_sp : list float;
  vi_sl : list float;
  vi_model : list (list float);
  vi_unc : list float
}.

(** The content of the buffers [slit_func_vert] writes, cell by cell, when it
    returns. *)
Record vert_out : Type := {
  vo_sp : nat -> float;
  vo_sl : nat -> float;
  vo_model : nat -> nat -> float;
  vo_unc : nat -> float;
  vo_mask : nat -> nat -> Z
}.

(** [sp, sl, model, unc, mask] *)
Record straight_result : Type := {
  sr_sp : list float;
  sr_sl : list float;
  sr_model : list (list float);
  sr_unc : list float;
  sr_mask : list (list bool)
}.

(** [ny = osample * (nrows + 1) + 1] *)
Definition slit_length (osample : Z) (nrows : nat) : Z :=
  (osample * (Z.of_nat nrows + 1) + 1)%Z.

(** The assertions of [slitfunc]. *)
Definition slitfunc_validate (img : image) (ycen : list float)
  (lambda_sp lambda_sf : float) (osample : Z) : result unit :=
  assert! (img_ncols img =? length ycen)%nat ;;
  assert! (0 <? osample)%Z ;;
  assert! (0 <=? lambda_sf)%float ;;
  assert! (0 <=? lambda_sp)%float ;;
  Ok tt.

(** The arrays [slitfunc] prepares between its assertions and the call of the
    kernel. *)
Definition slitfunc_args (img : image) (ycen : list float)
  (lambda_sp lambda_sf : float) (osample : Z) : vert_in :=
  let nrows := img_nrows img in
  let ncols := img_ncols img in
  let ny := slit_length osample nrows in
  let ycen := map fractional ycen in
  (* sp = np.ma.sum(img, axis=0) *)
  let sp := sum_axis0 ncols (zero_where (getmaskarray img) (img_data img)) in
  let sl := repeat zero (Z.to_nat ny) in
  (* mask = ~np.ma.getmaskarray(img), as C ints *)
  let mask := map (map (fun m : bool => if negb m then 1%Z else 0%Z))
                  (getmaskarray img) in
  (* img = np.ma.getdata(img) *)
  let im := img_data img in
  (* pix_unc = np.zeros_like(img) *)
  let pix_unc := map (map (fun _ : float => zero)) im in
  let model := fill2 nrows ncols (fun _ _ => zero) in
  let unc := repeat zero ncols in
  {| vi_ncols := cast_int (Z.of_nat ncols);
     vi_nrows := cast_int (Z.of_nat nrows);
     vi_im := im;
     vi_pix_unc := pix_unc;
     vi_mask := mask;
     vi_ycen := ycen;
     vi_osample := cast_int osample;
     vi_lambda_sp := lambda_sp;
     vi_lambda_sf := lambda_sf;
     vi_sp := sp;
     vi_sl := sl;
     vi_model := model;
     vi_unc := unc |}.

(** What [slitfunc] returns once the kernel has filled the buffers of [nrows]
    rows, [ncols] columns and [ny] slit-function nodes:
    [mask = ~mask.astype(bool)]. *)
Definition slitfunc_return (nrows ncols ny : nat) (o : vert_out)
  : straight_result :=
  {| sr_sp := fill1 ncols (vo_sp o);
     sr_sl := fill1 ny (vo_sl o);
     sr_model := fill2 nrows ncols (vo_model o);
     sr_unc := fill1 ncols (vo_unc o);
     sr_mask := map (map (fun z : Z => negb (negb (z =? 0)%Z)))
                    (fill2 nrows ncols (vo_mask o)) |}.

(** ** The curved path *)

(** [tilt] and [shear]: a scalar, or one value per column. *)
Inductive curvature : Type :=
| Scalar (x : float)
| PerColumn (a : list float).

(** [np.full(img.shape[1], tilt)] for a scalar, the array itself otherwise. *)
Definition broadcast (ncols : nat) (t : curvature) : list float :=
  match t with
  | Scalar x => repeat x ncols
  | PerColumn a => a
  end.

(** The assertions of [slitfunc_curved]. *)
Definition slitfunc_curved_validate (img : image) (ycen tilt shear : list float)
  (lambda_sp lambda_sf : float) (osample : Z) : result unit :=
  assert! (img_ncols img =? length ycen)%nat ;;
  assert! (img_ncols img =? length tilt)%nat ;;
  assert! (img_ncols img =? length shear)%nat ;;
  assert! (0 <? osample)%Z ;;
  assert! (0 <=? lambda_sf)%float ;;
  assert! (0 <=? lambda_sp)%float ;;
  assert! forallb isfinite ycen ;;
  assert! forallb isfinite tilt ;;
  assert! forallb isfinite shear ;;
  Ok tt.

(** The working arrays after the first, simplified run that removes the worst
    outliers. *)
Record working : Type := {
  w_img : list (list float);
  w_mask : list (list bool);
  w_sp : list float
}.

(** [mask = np.ma.getmaskarray(img); mask |= ~np.isfinite(img)] *)
Definition mask_nonfinite (img : image) : list (list bool) :=
  zipWith2 (fun (m : bool) v => m || negb (isfinite v))
           (getmaskarray img) (img_data img).

(** [sl = np.median(img, axis=1); sl /= np.sum(sl)] *)
Definition initial_slitfunction (im : list (list float)) : list float :=
  let sl := map np_median im in
  map (fun x => (x / np_sum sl)%float) sl.

(** From [mask = np.ma.getmaskarray(img)] to the second [sp = np.sum(img,
    axis=0)]. *)
Definition robust_init (img : image) : working :=
  let ncols := img_ncols img in
  let mask := mask_nonfinite img in
  let im := zero_where mask (img_data img) in
  let sp := median_filter5 (sum_axis0 ncols im) in
  let sl := initial_slitfunction im in
  let model := outer sl sp in
  let resid := zipWith2 PrimFloat.sub model im in
  let dev := np_std (concat resid) in
  let mask := zipWith2 (fun (m : bool) d => m || (6 * dev <? abs d)%float)
                       mask resid in
  let im := zero_where mask im in
  let sp := sum_axis0 ncols im in
  {| w_img := im; w_mask := mask; w_sp := sp |}.

(** [pix_unc = np.copy(img)];
    [np.sqrt(np.abs(pix_unc), where=np.isfinite(pix_unc), out=pix_unc)] *)
Definition pixel_uncertainty (im : list (list float)) : list (list float) :=
  map (map (fun v => if isfinite v then sqrt (abs v) else v)) im.

(** [yy = np.arange(-y_lower_lim, (nrows+1) - y_lower_lim)] *)
Definition row_offsets (nrows : nat) (y_lower_lim : Z) : list Z :=
  arange (- y_lower_lim) (Z.of_nat nrows + 1 - y_lower_lim).

(** [np.einsum("i,j", tilt, yy) + np.einsum("i,j", shear, yy**2)]: the
    horizontal displacement of every column at every row offset.  (The squares
    are taken on 64-bit integers, which row offsets cannot overflow.) *)
Definition displacement (tilt shear : list float) (yy : list Z)
  : list (list float) :=
  zipWith2 PrimFloat.add
    (outer tilt (map float_of_Z yy))
    (outer shear (map (fun y => float_of_Z (y * y)) yy)).

(** [dx = int(np.ceil(np.max(np.abs(dx))))] *)
Definition padding (tilt shear : list float) (yy : list Z) : result Z :=
  m <- np_max (concat (map (map abs) (displacement tilt shear yy))) ;;
  int_ceil m.

Record curved_in : Type := {
  ci_ncols : Z;
  ci_nrows : Z;
  ci_nx : Z;
  ci_ny : Z;
  ci_im : list (list float);
  ci_pix_unc : list (list float);
  ci_mask : list (list Z);
  ci_ycen : list float;
  ci_ycen_offset : list Z;
  ci_y_lower_lim : Z;
  ci_osample : Z;
  ci_lambda_sp : float;
  ci_lambda_sf : float;
  ci_PSF_curve : list (list float);
  ci_sp : list float;
  ci_sl : list float;
  ci_model : list (list float);
  ci_unc : list float;
  ci_mask_out : list (list Z);
  ci_info : list float
}.

(** The content of the buffers [slit_func_curved] writes.  (The band matrices
    [l_aij], [l_bj], [p_aij], [p_bj] are scratch memory: the wrapper never
    reads them.) *)
Record curved_out : Type := {
  co_sp : nat -> float;
  co_sl : nat -> float;
  co_model : nat -> nat -> float;
  co_unc : nat -> float;
  co_mask_out : nat -> nat -> Z;
  co_info : nat -> float
}.

(** [sp, sl, model, unc, mask, info] *)
Record curved_result : Type := {
  cr_sp : list float;
  cr_sl : list float;
  cr_model : list (list float);
  cr_unc : list float;
  cr_mask : list (list bool);
  cr_info : list float
}.

(** The arrays [slitfunc_curved] prepares for the kernel. *)
Definition slitfunc_curved_args (img : image) (w : working)
  (ycen tilt shear : list float) (y_lower_lim dx : Z)
  (lambda_sp lambda_sf : float) (osample : Z) : curved_in :=
  let nrows := img_nrows img in
  let ncols := img_ncols img in
  let ny := slit_length osample nrows in
  let nx := (dx * 2 + 1)%Z in
  {| ci_ncols := cast_int (Z.of_nat ncols);
     ci_nrows := cast_int (Z.of_nat nrows);
     ci_nx := cast_int nx;
     ci_ny := cast_int ny;
     ci_im := w_img w;
     ci_pix_unc := pixel_uncertainty (w_img w);
     (* mask = np.where(mask, c_int(0), c_int(1)) *)
     ci_mask := map (map (fun m : bool => if m then 0%Z else 1%Z)) (w_mask w);
     ci_ycen := map fractional ycen;
     ci_ycen_offset := map astype_c_int ycen;
     ci_y_lower_lim := cast_int y_lower_lim;
     ci_osample := cast_int osample;
     ci_lambda_sp := lambda_sp;
     ci_lambda_sf := lambda_sf;
     ci_PSF_curve := zipWith (fun t s => [zero; t; s]) tilt shear;
     ci_sp := w_sp w;
     ci_sl := repeat zero (Z.to_nat ny);
     ci_model := fill2 nrows ncols (fun _ _ => zero);
     ci_unc := repeat zero ncols;
     ci_mask_out := fill2 nrows ncols (fun _ _ => 1%Z);
     ci_info := repeat zero 4 |}.

(** [if dx > 0: sp[:dx] = 0; sp[-dx:] = 0] *)
Definition trim_edges (dx : Z) (sp : list float) : list float :=
  if (0 <? dx)%Z
  then assign_tail (Z.to_nat dx) zero (assign_head (Z.to_nat dx) zero sp)
  else sp.

(** What [slitfunc_curved] returns once the kernel has filled the buffers:
    [mask = mask_out == 0], and the edges of the spectrum are set to zero. *)
Definition slitfunc_curved_return (nrows ncols ny : nat) (dx : Z)
  (o : curved_out) : curved_result :=
  {| cr_sp := trim_edges dx (fill1 ncols (co_sp o));
     cr_sl := fill1 ny (co_sl o);
     cr_model := fill2 nrows ncols (co_model o);
     cr_unc := fill1 ncols (co_unc o);
     cr_mask := map (map (fun z : Z => (z =? 0)%Z))
                    (fill2 nrows ncols (co_mask_out o));
     cr_info := fill1 4 (co_info o) |}.

(** The pixels of the caller's array once the wrapper has run its first stage:
    an array of doubles is worked on in place. *)
Definition caller_pixels (img : image) (w : working) : list (list float) :=
  if img_is_double img then w_img w else img_data img.

(** Everything [slitfunc_curved] does before it calls the kernel: the padding
    [dx] and the arrays for the kernel, or the exception raised on the way;
    and the pixels the caller's image holds by then. *)
Definition slitfunc_curved_prepare (img : image) (ycen : list float)
  (tilt shear : curvature) (lambda_sp lambda_sf : float) (osample : Z)
  : result (Z * curved_in) * list (list float) :=
  let nrows := img_nrows img in
  let ncols := img_ncols img in
  let tilt := broadcast ncols tilt in
  let shear := broadcast ncols shear in
  match
    _ <- slitfunc_curved_validate img ycen tilt shear
           lambda_sp lambda_sf osample ;;
    np_min (map astype_c_int ycen)
  with
  | Raise e => (Raise e, img_data img)
  | Ok y_lower_lim =>
      let w := robust_init img in
      (dx <- padding tilt shear (row_offsets nrows y_lower_lim) ;;
       Ok (dx, slitfunc_curved_args img w ycen tilt shear y_lower_lim dx
                 lambda_sp lambda_sf osample),
       caller_pixels img w)
  end.

(** ** The two entry points *)

Section Wrappers.

(** The native kernels. *)
Variable slit_func_vert : vert_in -> vert_out.
Variable slit_func_curved : curved_in -> curved_out.

(** [slitfunc(img, ycen, lambda_sp, lambda_sf, osample)] *)
Definition slitfunc (img : image) (ycen : list float)
  (lambda_sp lambda_sf : float) (osample : Z) : result straight_result :=
  _ <- slitfunc_validate img ycen lambda_sp lambda_sf osample ;;
  let a := slitfunc_args img ycen lambda_sp lambda_sf osample in
  let ny := Z.to_nat (slit_length osample (img_nrows img)) in
  Ok (slitfunc_return (img_nrows img) (img_ncols img) ny (slit_func_vert a)).

(** [slitfunc_curved(img, ycen, tilt, shear, lambda_sp, lambda_sf, osample)]:
    the outcome of the call, and the pixels that the caller's image holds
    after it.  (The kernel reads the image; it writes its output buffers
    only.) *)
Definition slitfunc_curved (img : image) (ycen : list float)
  (tilt shear : curvature) (lambda_sp lambda_sf : float) (osample : Z)
  : result curved_result * list (list float) :=
  let p := slitfunc_curved_prepare img ycen tilt shear
             lambda_sp lambda_sf osample in
  let ny := Z.to_nat (slit_length osample (img_nrows img)) in
  (da <- fst p ;;
   Ok (slitfunc_curved_return (img_nrows img) (img_ncols img) ny (fst da)
         (slit_func_curved (snd da))),
   snd p).

End Wrappers.

(** A kernel that converges at once: it leaves every buffer as the wrapper
    prepared it and rejects no pixel. *)
Definition idle_vert (a : vert_in) : vert_out :=
  {| vo_sp := get1 (vi_sp a);
     vo_sl := get1 (vi_sl a);
     vo_model := get2 zero (vi_model a);
     vo_unc := get1 (vi_unc a);
     vo_mask := get2 0%Z (vi_mask a) |}.

Definition idle_curved (a : curved_in) : curved_out :=
  {| co_sp := get1 (ci_sp a);
     co_sl := get1 (ci_sl a);
     co_model := get2 zero (ci_model a);
     co_unc := get1 (ci_unc a);
     co_mask_out := get2 0%Z (ci_mask_out a);
     co_info := get1 (ci_info a) |}.

(** A kernel that reports, as the uncertainty of a column, the trace position
    it was handed for that column; idle otherwise. *)
Definition echo_vert (a : vert_in) : vert_out :=
  {| vo_sp := get1 (vi_sp a);
     vo_sl := get1 (vi_sl a);
     vo_model := get2 zero (vi_model a);
     vo_unc := get1 (vi_ycen a);
     vo_mask := get2 0%Z (vi_mask a) |}.

(** ** Notions the statements use *)

(** The mask the kernels work on holds 1 for a pixel that takes part in the
    solve and 0 for a rejected one: in this polarity both wrappers build the
    mask they hand over ([~np.ma.getmaskarray(img)],
    [np.where(mask, c_int(0), c_int(1))], [np.ones] for [mask_out]). *)
Definition used_in_solve (flag : Z) : bool := negb (flag =? 0)%Z.




(** Adding an integer per column to a trace: [ycen + k]. *)
Definition shift_trace (ycen : list float) (k : list Z) : list float :=
  zipWith (fun y n => (y + float_of_Z n)%float) ycen k.

(** The robust initializer of the curved path, pixel by pixel, in the words of
    its description. *)
Module Initializer.
Section OnImage.

Variable img : image.

Let nrows := img_nrows img.
Let ncols := img_ncols img.

(** The value of a pixel on input. *)
Definition pixel (r c : nat) : float := get2 zero (img_data img) r c.

(** A pixel that is masked out on input, or not finite. *)
Definition invalid (r c : nat) : bool :=
  get2 false (getmaskarray img) r c || negb (isfinite (pixel r c)).

(** The masked image: invalid pixels count as zero. *)
Definition masked_pixel (r c : nat) : float :=
  if invalid r c then zero else pixel r c.

(** The column sums of an image given pixel by pixel. *)
Definition column_sums (pix : nat -> nat -> float) : list float :=
  fill1 ncols (fun c => np_sum (fill1 nrows (fun r => pix r c))).

(** The initial spectrum: the column sums of the masked image, smoothed by a
    median filter of window 5. *)
Definition initial_spectrum : list float :=
  median_filter5 (column_sums masked_pixel).

(** The initial slit profile: the median of every row, normalised by the sum
    of the medians. *)
Definition row_median (r : nat) : float :=
  np_median (fill1 ncols (masked_pixel r)).

Definition initial_slit (r : nat) : float :=
  (row_median r / np_sum (fill1 nrows row_median))%float.

(** The residual of the trial model, the outer product of slit profile and
    spectrum, against the image. *)
Definition residual (r c : nat) : float :=
  (initial_slit r * get1 initial_spectrum c - masked_pixel r c)%float.

(** The standard deviation of the residuals. *)
Definition sigma : float := np_std (concat (fill2 nrows ncols residual)).

(** A pixel whose absolute residual exceeds six sigma. *)
Definition clipped (r c : nat) : bool :=
  (6 * sigma <? abs (residual r c))%float.

Definition rejected (r c : nat) : bool := invalid r c || clipped r c.

(** The cleaned working image: rejected pixels are zero. *)
Definition cleaned_pixel (r c : nat) : float :=
  if rejected r c then zero else pixel r c.

(** The initial spectrum, recomputed from the cleaned image. *)
Definition cleaned_spectrum : list float := column_sums cleaned_pixel.

End OnImage.
End Initializer.

(** The square root of a value clipped to be non-negative:
    [sqrt(max(value, 0))]. *)
Definition clipped_sqrt (v : float) : float := sqrt (np_maximum v zero).

(** A call that violates a precondition the two entry points share. *)
Definition bad_arguments (img : image) (ycen : list float)
  (lambda_sp lambda_sf : float) (osample : Z) : Prop :=
  (osample <= 0)%Z \/
  (lambda_sf <? 0)%float = true \/
  (lambda_sp <? 0)%float = true \/
  length ycen <> img_ncols img.

Definition has_nonfinite (a : list float) : bool :=
  existsb (fun x => negb (isfinite x)) a.

(** A call that violates a precondition on the geometry of the curved path;
    [tilt] and [shear] are the arrays after broadcasting. *)
Definition bad_geometry (img : image) (ycen tilt shear : list float) : Prop :=
  length tilt <> img_ncols img \/
  length shear <> img_ncols img \/
  has_nonfinite ycen = true \/
  has_nonfinite tilt = true \/
  has_nonfinite shear = true.

(** The five results the two entry points share. *)
Definition five_outputs (res : curved_result) : straight_result :=
  {| sr_sp := cr_sp res;
     sr_sl := cr_sl res;
     sr_model := cr_model res;
     sr_unc := cr_unc res;
     sr_mask := cr_mask res |}.

(** A call to either entry point, on the image [img] with the oversampling
    factor [osample], that returns: the mask the kernel leaves behind (the
    flag of every pixel) and the results of the call. *)
Inductive returns (vert : vert_in -> vert_out) (curved : curved_in -> curved_out)
  (img : image) (osample : Z) : (nat -> nat -> Z) -> straight_result -> Prop :=
| returns_slitfunc (ycen : list float) (lambda_sp lambda_sf : float)
    (res : straight_result) :
    slitfunc vert img ycen lambda_sp lambda_sf osample = Ok res ->
    returns vert curved img osample
      (vo_mask (vert (slitfunc_args img ycen lambda_sp lambda_sf osample))) res
| returns_slitfunc_curved (ycen : list float) (tilt shear : curvature)
    (lambda_sp lambda_sf : float) (dx : Z) (a : curved_in)
    (res : curved_result) :
    fst (slitfunc_curved_prepare img ycen tilt shear
           lambda_sp lambda_sf osample) = Ok (dx, a) ->
    fst (slitfunc_curved curved img ycen tilt shear
           lambda_sp lambda_sf osample) = Ok res ->
    returns vert curved img osample (co_mask_out (curved a)) (five_outputs res).

(** ** Sample inputs *)

(** An array of doubles of one pixel. *)
Definition one_pixel (v : float) : image :=
  {| img_data := [[v]]; img_ncols := 1; img_mask := None;
     img_is_double := true |}.

(** A masked array of three rows and two columns; the pixel in the middle of
    the first column is masked out, the last one is not finite. *)
Definition small_image : image :=
  {| img_data := [[1; 2]; [50; 4]; [3; infinity]]%float;
     img_ncols := 2;
     img_mask := Some [[false; false]; [true; false]; [false; false]];
     img_is_double := true |}.



(** An image of two rows and no column. *)
Definition columnless_image : image :=
  {| img_data := [[]; []]; img_ncols := 0; img_mask := None;
     img_is_double := true |}.

(** * Splicing the orders: [pyreduce/continuum_normalization.py]

    [splice_orders] first turns the column ranges into the mask of four masked
    arrays, then walks over pairs of neighbouring orders.  The interpolation
    it applies to every pair ([util.bezier_interp]) is not part of the
    sources; the mask and the walk are embedded here. *)
Module Splice.

Inductive error : Type :=
| IndexError   (* an index outside of an array *)
| MaskError.   (* numpy.ma: mask and data not compatible *)

Inductive outcome (A : Type) : Type :=
| Returns (a : A)
| Raises (e : error).

Arguments Returns {A} a.
Arguments Raises {A} e.

(** [range(start, stop)] *)
Definition range (start stop : Z) : list Z :=
  map (fun k => (start + Z.of_nat k)%Z) (seq 0 (Z.to_nat (stop - start))).



(** The position a bound of a slice stands for on an axis of [n] entries: a
    negative bound counts from the end, and bounds are clipped to the axis. *)
Definition slice_bound (i : Z) (n : nat) : nat :=
  Z.to_nat (if (i <? 0)%Z then Z.max (i + Z.of_nat n) 0
            else Z.min i (Z.of_nat n)).

(** An integer index on an axis of [n] entries: a negative index counts from
    the end; an index off the axis raises. *)
Definition index (i : Z) (n : nat) : outcome nat :=
  if ((0 <=? i) && (i <? Z.of_nat n))%Z then Returns (Z.to_nat i)
  else if ((- Z.of_nat n <=? i) && (i <? 0))%Z
       then Returns (Z.to_nat (i + Z.of_nat n))
       else Raises IndexError.

(** [row[lo:hi] = v] *)
Definition assign_slice (lo hi : Z) (v : bool) (row : list bool) : list bool :=
  let n := length row in
  map (fun i => if (slice_bound lo n <=? i)%nat && (i <? slice_bound hi n)%nat
                then v else nth i row v)
      (seq 0 n).

(** [mask[r] = row] *)
Definition set_row (r : nat) (row : list bool) (mask : list (list bool))
  : list (list bool) :=
  firstn r mask ++ row :: skipn (S r) mask.

(** [for iord in orders: cr = column_range[iord];]
    [mask[iord, cr[0] : cr[1]] = False] *)
Fixpoint mask_orders (column_range : list (Z * Z)) (mask : list (list bool))
  (orders : list Z) : outcome (list (list bool)) :=
  match orders with
  | [] => Returns mask
  | iord :: rest =>
      match index iord (length column_range), index iord (length mask) with
      | Returns k, Returns r =>
          let cr := nth k column_range (0%Z, 0%Z) in
          mask_orders column_range
            (set_row r (assign_slice (fst cr) (snd cr) false (nth r mask []))
               mask)
            rest
      | Raises e, _ => Raises e
      | _, Raises e => Raises e
      end
  end.

(** [np.ma.masked_array(data, mask=mask)] for data of [rows] times [ncol]
    entries and a mask of [mrows] times [ncol] entries: a mask of another
    shape is resized when it has one entry, reshaped when it has as many
    entries as the data, and refused otherwise. *)
Definition masked_array (rows ncol : nat) (mask : list (list bool))
  : outcome (list (list bool)) :=
  let mrows := length mask in
  if (rows =? mrows)%nat then Returns mask
  else if (mrows * ncol =? 1)%nat
       then Returns (repeat (repeat (get2 true mask 0 0) ncol) rows)
       else if (mrows * ncol =? rows * ncol)%nat
            then Returns (repeat [] rows)
            else Raises MaskError.

(** The mask that [splice_orders] gives to the four masked arrays it works
    on, for [nord] orders of [ncol] columns:
    [mask = np.full(spec.shape, True)], the loop over the orders of
    [order_range], and
    [np.ma.masked_array(spec[order_range[0] : order_range[1] + 1, :],
    mask=mask)]. *)
Definition splice_orders_mask (nord ncol : nat)
  (column_range : option (list (Z * Z))) (order_range : option (Z * Z))
  : outcome (list (list bool)) :=
  (* column_range = np.tile([0, ncol], (nord, 1)) *)
  let column_range := match column_range with
                      | Some cr => cr
                      | None => repeat (0%Z, Z.of_nat ncol) nord
                      end in
  (* order_range = (0, nord - 1) *)
  let order_range := match order_range with
                     | Some r => r
                     | None => (0%Z, (Z.of_nat nord - 1)%Z)
                     end in
  match mask_orders column_range (repeat (repeat true ncol) nord)
          (range (fst order_range) (snd order_range + 1)) with
  | Raises e => Raises e
  | Returns mask =>
      let rows := slice_bound (snd order_range + 1) nord
                  - slice_bound (fst order_range) nord in
      masked_array rows ncol mask
  end.

End Splice.

(** * The HARPS instrument: [instruments/harps.py]

    [sort_files] looks its header keywords up in the dictionary of
    [load_info].  The date parser, the string methods and the reading of the
    FITS headers are not part of the sources: they are parameters. *)
Module Harps.

Import Stdlib.Strings.String.
Local Open Scope string_scope.

Local Unset Elimination Schemes.

(** The values of the dictionary. *)
Inductive value : Type :=
| Str (s : string)
| Int (n : Z)
| Seq (l : list value).

Local Set Elimination Schemes.

Inductive error : Type :=
| KeyError (key : string)   (* a key the dictionary does not have *)
| IndexError                (* an index off a list *)
| ParserError.              (* a night that is not a date *)

Inductive outcome (A : Type) : Type :=
| Returns (a : A)
| Raises (e : error).

Arguments Returns {A} a.
Arguments Raises {A} e.

Definition bind {A B : Type} (r : outcome A) (k : A -> outcome B)
  : outcome B :=
  match r with
  | Returns a => k a
  | Raises e => Raises e
  end.

(** [load_info]: the hard-coded information about the instrument. *)
Definition load_info : list (string * value) :=
  [ ("instrument", Str "INSTRUME");
    ("date", Str "DATE-OBS");
    ("modes", Seq [Str "blue"; Str "red"]);
    ("extension", Seq [Int 1; Int 2]);
    ("id", Seq [Seq [Int 1; Int 1]; Seq [Int 1; Int 2]]);
    ("orientation", Int 6);
    ("prescan_x", Str "HIERARCH ESO DET OUT{id[0]} PRSCX");
    ("overscan_x", Str "HIERARCH ESO DET OUT{id[0]} OVSCX");
    ("prescan_y", Int 0);
    ("overscan_y", Int 0);
    ("naxis_x", Str "NAXIS1");
    ("naxis_y", Str "NAXIS2");
    ("gain", Str "HIERARCH ESO DET OUT{id[0]} CONAD");
    ("readnoise", Str "HIERARCH ESO DET OUT{id[0]} RON");
    ("dark", Str "HIERARCH ESO INS DET{id[1]} OFFDRK");
    ("sky", Str "HIERARCH ESO INS DET{id[1]} OFFSKY");
    ("exposure_time", Str "EXPTIME");
    ("image_type", Str "OBJECT");
    ("category", Str "HIERARCH ESO DPR CATG");
    ("ra", Str "RA");
    ("dec", Str "DEC");
    ("jd", Str "MJD-OBS");
    ("longitude", Str "HIERARCH ESO TEL GEOLON");
    ("latitude", Str "HIERARCH ESO TEL GEOLAT");
    ("altitude", Str "HIERARCH ESO TEL GEOELEV");
    ("target", Str "OBJECT");
    ("observation_type", Str "ESO DPR TYPE");
    ("id_bias", Str "BIAS,BIAS");
    ("id_flat", Str "FLAT,FLAT");
    ("id_wave", Str "WAVE,WAVE, THAR2");
    ("id_spec", Str "STAR,SKY,M");
    ("id_fiber_a", Str "LAMP,DARK,TUN");
    ("id_fiber_b", Str "DARK,LAMP,TUN") ]%list.

(** [info[key]] *)
Fixpoint getitem (info : list (string * value)) (key : string)
  : outcome value :=
  match info with
  | nil => Raises (KeyError key)
  | (k, v) :: rest => if String.eqb k key then Returns v else getitem rest key
  end.

(** [[i for i, m in enumerate(modes) if m == mode]] *)
Fixpoint indices_of (mode : string) (modes : list value) (i : nat)
  : list nat :=
  match modes with
  | nil => nil
  | m :: rest =>
      let found := indices_of mode rest (S i) in
      match m with
      | Str s => if String.eqb s mode then i :: found else found
      | _ => found
      end
  end.

(** [l[0]] *)
Definition first {A : Type} (l : list A) : outcome A :=
  match l with
  | nil => Raises IndexError
  | x :: _ => Returns x
  end.

(** The entries of a list value. *)
Definition entries (v : value) : list value :=
  match v with
  | Seq l => l
  | _ => nil
  end.

Section SortFiles.

(** The date of a night, [parser.parse(night).date()]. *)
Variable date : Type.
Variable parse_night : string -> outcome date.

(** The lists of files the function returns. *)
Variable lists : Type.

(** What [sort_files] does once it has the identifier of the mode: it reads
    the headers of the files and selects by instrument, night, mode and
    type. *)
Variable select :
  list string -> string -> date -> value -> string -> outcome lists.

(** [sort_files(files, target, night, mode, fiber)] *)
Definition sort_files (files : list string) (target night mode fiber : string)
  : outcome lists :=
  let info := load_info in
  bind (parse_night night) (fun night =>
  bind (getitem info "modes") (fun modes =>
  (* i = [i for i, m in enumerate(info["modes"]) if m == mode][0] *)
  bind (first (indices_of mode (entries modes) 0)) (fun i =>
  (* mode_id = info["modes_id"][i].casefold() *)
  bind (getitem info "modes_id") (fun modes_id =>
  bind (first (skipn i (entries modes_id))) (fun mode_id =>
  select files target night mode_id fiber))))).

End SortFiles.

End Harps.

(** * Properties *)

(** ** Buffers and elementwise operations *)

Section Buffers.

Context {A B C : Type}.

Lemma length_fill1 (n : nat) (f : nat -> A) : length (fill1 n f) = n.
Proof. unfold fill1. now rewrite length_map, length_seq. Qed.

Lemma nth_fill1 (n : nat) (f : nat -> A) (d : A) (i : nat) :
  i < n -> nth i (fill1 n f) d = f i.
Proof.
  intros Hi. unfold fill1.
  rewrite (nth_indep _ d (f 0)) by now rewrite length_map, length_seq.
  rewrite (map_nth f (seq 0 n) 0 i), seq_nth; auto.
Qed.

Lemma fill1_ext (n : nat) (f g : nat -> A) :
  (forall i, i < n -> f i = g i) -> fill1 n f = fill1 n g.
Proof.
  intros H. apply map_ext_in. intros i Hi. apply in_seq in Hi. apply H. lia.
Qed.

Lemma as_fill1 (d : A) (l : list A) :
  l = fill1 (length l) (fun i => nth i l d).
Proof.
  apply (nth_ext _ _ d d).
  - now rewrite length_fill1.
  - intros i Hi. now rewrite nth_fill1.
Qed.

Lemma map_fill1 (g : A -> B) (n : nat) (f : nat -> A) :
  map g (fill1 n f) = fill1 n (fun i => g (f i)).
Proof. unfold fill1. now rewrite map_map. Qed.

Lemma zipWith_map (f : A -> B -> C) {I : Type} (g : I -> A) (h : I -> B)
  (l : list I) :
  zipWith f (map g l) (map h l) = map (fun i => f (g i) (h i)) l.
Proof. induction l as [|i l IH]; simpl; congruence. Qed.

Lemma zipWith_fill1 (f : A -> B -> C) (n : nat) (g : nat -> A)
  (h : nat -> B) :
  zipWith f (fill1 n g) (fill1 n h) = fill1 n (fun i => f (g i) (h i)).
Proof. apply zipWith_map. Qed.

End Buffers.

Section Buffers2.

Context {A B C : Type}.

Lemma length_fill2 (nr nc : nat) (f : nat -> nat -> A) :
  length (fill2 nr nc f) = nr.
Proof. unfold fill2. now rewrite length_map, length_seq. Qed.


Lemma get2_fill2 (nr nc : nat) (f : nat -> nat -> A) (d : A) (r c : nat) :
  r < nr -> c < nc -> get2 d (fill2 nr nc f) r c = f r c.
Proof.
  intros Hr Hc. unfold get2.
  change (fill2 nr nc f) with (fill1 nr (fun r => fill1 nc (f r))).
  rewrite nth_fill1 by assumption. now apply nth_fill1.
Qed.

Lemma fill2_ext (nr nc : nat) (f g : nat -> nat -> A) :
  (forall r c, r < nr -> c < nc -> f r c = g r c) ->
  fill2 nr nc f = fill2 nr nc g.
Proof.
  intros H.
  change (fill1 nr (fun r => fill1 nc (f r))
          = fill1 nr (fun r => fill1 nc (g r))).
  apply fill1_ext. intros r Hr. apply fill1_ext. intros c Hc. now apply H.
Qed.

Lemma as_fill2 (d : A) (nc : nat) (M : list (list A)) :
  rectangular nc M -> M = fill2 (length M) nc (get2 d M).
Proof.
  intros HM. apply (nth_ext _ _ [] []).
  - now rewrite length_fill2.
  - intros r Hr.
    change (fill2 (length M) nc (get2 d M))
      with (fill1 (length M) (fun r => fill1 nc (get2 d M r))).
    rewrite nth_fill1 by assumption.
    assert (Hlen : length (nth r M []) = nc).
    { unfold rectangular in HM. rewrite Forall_forall in HM.
      apply HM. now apply nth_In. }
    rewrite <- Hlen at 1. apply as_fill1.
Qed.

Lemma map_fill2 (g : A -> B) (nr nc : nat) (f : nat -> nat -> A) :
  map (map g) (fill2 nr nc f) = fill2 nr nc (fun r c => g (f r c)).
Proof.
  unfold fill2. rewrite map_map. apply map_ext. intros r. now rewrite map_map.
Qed.

Lemma zipWith2_fill2 (f : A -> B -> C) (nr nc : nat)
  (g : nat -> nat -> A) (h : nat -> nat -> B) :
  zipWith2 f (fill2 nr nc g) (fill2 nr nc h)
  = fill2 nr nc (fun r c => f (g r c) (h r c)).
Proof.
  unfold zipWith2, fill2. rewrite zipWith_map.
  apply map_ext. intros r. apply zipWith_map.
Qed.

End Buffers2.

(** ** The robust initializer, array by array *)

Lemma image_as_fill2 (img : image) :
  wf_image img ->
  img_data img = fill2 (img_nrows img) (img_ncols img) (Initializer.pixel img).
Proof.
  intros [Hdata _]. unfold img_nrows, Initializer.pixel.
  now apply as_fill2.
Qed.

Lemma getmaskarray_as_fill2 (img : image) :
  wf_image img ->
  getmaskarray img
  = fill2 (img_nrows img) (img_ncols img) (get2 false (getmaskarray img)).
Proof.
  intros [_ Hmask]. unfold getmaskarray in *.
  destruct (img_mask img) as [m|].
  - destruct Hmask as [Hlen Hrect]. rewrite <- Hlen. now apply as_fill2.
  - apply fill2_ext. intros r c Hr Hc. now rewrite get2_fill2.
Qed.

Lemma sum_axis0_fill2 (nr nc : nat) (f : nat -> nat -> float) :
  sum_axis0 nc (fill2 nr nc f)
  = fill1 nc (fun c => np_sum (fill1 nr (fun r => f r c))).
Proof.
  unfold sum_axis0. apply fill1_ext. intros c Hc. f_equal.
  unfold column.
  change (fill2 nr nc f) with (fill1 nr (fun r => fill1 nc (f r))).
  rewrite map_fill1. apply fill1_ext. intros r Hr.
  unfold get1. now apply nth_fill1.
Qed.

Lemma initial_slitfunction_fill2 (nr nc : nat) (f : nat -> nat -> float) :
  let med := fun r => np_median (fill1 nc (f r)) in
  initial_slitfunction (fill2 nr nc f)
  = fill1 nr (fun r => (med r / np_sum (fill1 nr med))%float).
Proof.
  intros med. unfold initial_slitfunction.
  change (fill2 nr nc f) with (fill1 nr (fun r => fill1 nc (f r))).
  rewrite map_fill1. fold med. now rewrite map_fill1.
Qed.

Lemma outer_fill (nr : nat) (s : nat -> float) (sp : list float) :
  outer (fill1 nr s) sp
  = fill2 nr (length sp) (fun r c => (s r * get1 sp c)%float).
Proof.
  unfold outer. rewrite map_fill1.
  change (fill2 nr (length sp) (fun r c => (s r * get1 sp c)%float))
    with (fill1 nr (fun r => fill1 (length sp)
                               (fun c => (s r * get1 sp c)%float))).
  apply fill1_ext. intros r Hr.
  rewrite (as_fill1 zero sp) at 1. now rewrite map_fill1.
Qed.

Lemma length_median_filter5 (l : list float) :
  length (median_filter5 l) = length l.
Proof. unfold median_filter5. apply length_fill1. Qed.

Lemma length_initial_spectrum (img : image) :
  length (Initializer.initial_spectrum img) = img_ncols img.
Proof.
  unfold Initializer.initial_spectrum, Initializer.column_sums.
  now rewrite length_median_filter5, length_fill1.
Qed.

Lemma mask_nonfinite_fill2 (img : image) :
  wf_image img ->
  mask_nonfinite img
  = fill2 (img_nrows img) (img_ncols img) (Initializer.invalid img).
Proof.
  intros Hwf. unfold mask_nonfinite.
  rewrite (getmaskarray_as_fill2 Hwf), (image_as_fill2 Hwf) at 1.
  rewrite zipWith2_fill2. apply fill2_ext. intros r c Hr Hc.
  reflexivity.
Qed.

Lemma zero_where_fill2 (nr nc : nat) (m : nat -> nat -> bool)
  (f : nat -> nat -> float) :
  zero_where (fill2 nr nc m) (fill2 nr nc f)
  = fill2 nr nc (fun r c => if m r c then zero else f r c).
Proof. unfold zero_where. apply zipWith2_fill2. Qed.

Lemma masked_image_fill2 (img : image) :
  wf_image img ->
  zero_where (mask_nonfinite img) (img_data img)
  = fill2 (img_nrows img) (img_ncols img) (Initializer.masked_pixel img).
Proof.
  intros Hwf.
  rewrite (mask_nonfinite_fill2 Hwf), (image_as_fill2 Hwf) at 1.
  apply zero_where_fill2.
Qed.

Lemma cleaned_pixel_masked (img : image) (r c : nat) :
  (if Initializer.rejected img r c then zero
   else Initializer.masked_pixel img r c)
  = Initializer.cleaned_pixel img r c.
Proof.
  unfold Initializer.cleaned_pixel, Initializer.rejected,
    Initializer.masked_pixel.
  now destruct (Initializer.invalid img r c).
Qed.

(** The residuals of the trial model against the masked image. *)
Lemma trial_residuals (img : image) :
  wf_image img ->
  let im := zero_where (mask_nonfinite img) (img_data img) in
  zipWith2 PrimFloat.sub
    (outer (initial_slitfunction im)
           (median_filter5 (sum_axis0 (img_ncols img) im)))
    im
  = fill2 (img_nrows img) (img_ncols img) (Initializer.residual img).
Proof.
  intros Hwf im. unfold im. rewrite (masked_image_fill2 Hwf).
  set (nr := img_nrows img). set (nc := img_ncols img).
  assert (Hsp : median_filter5
                  (sum_axis0 nc (fill2 nr nc (Initializer.masked_pixel img)))
                = Initializer.initial_spectrum img).
  { now rewrite sum_axis0_fill2. }
  assert (Hsl : initial_slitfunction
                  (fill2 nr nc (Initializer.masked_pixel img))
                = fill1 nr (Initializer.initial_slit img)).
  { now rewrite initial_slitfunction_fill2. }
  rewrite Hsp, Hsl, outer_fill, length_initial_spectrum. fold nc.
  now rewrite zipWith2_fill2.
Qed.

(** The mask after the clip. *)
Lemma robust_init_mask (img : image) :
  wf_image img ->
  w_mask (robust_init img)
  = fill2 (img_nrows img) (img_ncols img) (Initializer.rejected img).
Proof.
  intros Hwf. unfold robust_init. simpl.
  rewrite (trial_residuals Hwf), (mask_nonfinite_fill2 Hwf).
  now rewrite zipWith2_fill2.
Qed.

(** The working image after the clip. *)
Lemma robust_init_img (img : image) :
  wf_image img ->
  w_img (robust_init img)
  = fill2 (img_nrows img) (img_ncols img) (Initializer.cleaned_pixel img).
Proof.
  intros Hwf.
  assert (Hmask := robust_init_mask Hwf).
  unfold robust_init in *. simpl in *. rewrite Hmask.
  rewrite (masked_image_fill2 Hwf), zero_where_fill2.
  apply fill2_ext. intros. apply cleaned_pixel_masked.
Qed.


Lemma wf_small_image : wf_image small_image.
Proof.
  split; [repeat constructor | split; [reflexivity | repeat constructor]].
Defined.


(** ** Validation *)

Lemma assert_bind_ok {A : Type} (c : bool) (k : result A) (a : A) :
  (assert! c ;; k) = Ok a -> c = true /\ k = Ok a.
Proof. destruct c; simpl; [auto | discriminate]. Qed.

Lemma assert_bind_raise {A : Type} (c : bool) (k : result A) (e : exn) :
  (assert! c ;; k) = Raise e -> e = AssertionError \/ k = Raise e.
Proof. destruct c; simpl; [auto | intros [= <-]; auto]. Qed.

Lemma slitfunc_validate_ok (img : image) (ycen : list float)
  (lambda_sp lambda_sf : float) (osample : Z) :
  slitfunc_validate img ycen lambda_sp lambda_sf osample = Ok tt ->
  img_ncols img = length ycen /\ (0 < osample)%Z /\
  (0 <=? lambda_sf)%float = true /\ (0 <=? lambda_sp)%float = true.
Proof.
  unfold slitfunc_validate. intros H.
  apply assert_bind_ok in H as [H1 H]. apply assert_bind_ok in H as [H2 H].
  apply assert_bind_ok in H as [H3 H]. apply assert_bind_ok in H as [H4 _].
  apply Nat.eqb_eq in H1. apply Z.ltb_lt in H2. auto.
Qed.

Lemma slitfunc_validate_raise (img : image) (ycen : list float)
  (lambda_sp lambda_sf : float) (osample : Z) (e : exn) :
  slitfunc_validate img ycen lambda_sp lambda_sf osample = Raise e ->
  e = AssertionError.
Proof.
  unfold slitfunc_validate. intros H.
  repeat (apply assert_bind_raise in H as [H | H]; [assumption |]).
  discriminate.
Qed.

Lemma slitfunc_curved_validate_ok (img : image) (ycen tilt shear : list float)
  (lambda_sp lambda_sf : float) (osample : Z) :
  slitfunc_curved_validate img ycen tilt shear lambda_sp lambda_sf osample
  = Ok tt ->
  (img_ncols img = length ycen /\ (0 < osample)%Z /\
   (0 <=? lambda_sf)%float = true /\ (0 <=? lambda_sp)%float = true) /\
  (img_ncols img = length tilt /\ img_ncols img = length shear /\
   forallb isfinite ycen = true /\ forallb isfinite tilt = true /\
   forallb isfinite shear = true).
Proof.
  unfold slitfunc_curved_validate. intros H.
  apply assert_bind_ok in H as [H1 H]. apply assert_bind_ok in H as [H2 H].
  apply assert_bind_ok in H as [H3 H]. apply assert_bind_ok in H as [H4 H].
  apply assert_bind_ok in H as [H5 H]. apply assert_bind_ok in H as [H6 H].
  apply assert_bind_ok in H as [H7 H]. apply assert_bind_ok in H as [H8 H].
  apply assert_bind_ok in H as [H9 _].
  apply Nat.eqb_eq in H1, H2, H3. apply Z.ltb_lt in H4. auto 10.
Qed.

Lemma slitfunc_curved_validate_raise (img : image)
  (ycen tilt shear : list float) (lambda_sp lambda_sf : float) (osample : Z)
  (e : exn) :
  slitfunc_curved_validate img ycen tilt shear lambda_sp lambda_sf osample
  = Raise e ->
  e = AssertionError.
Proof.
  unfold slitfunc_curved_validate. intros H.
  repeat (apply assert_bind_raise in H as [H | H]; [assumption |]).
  discriminate.
Qed.

(** A negative double is not [>= 0]. *)
Lemma negative_not_leb (x : float) :
  (x <? 0)%float = true -> (0 <=? x)%float = false.
Proof.
  rewrite ltb_spec, leb_spec.
  change (Prim2SF 0) with (S754_zero false).
  destruct (Prim2SF x) as [s | s | | s m e]; simpl;
    try destruct s; simpl; intros H; try discriminate; reflexivity.
Qed.

Lemma has_nonfinite_forallb (a : list float) :
  has_nonfinite a = true -> forallb isfinite a = false.
Proof.
  unfold has_nonfinite. induction a as [|x a IH]; simpl; [discriminate |].
  destruct (isfinite x); simpl; auto.
Qed.

Lemma bad_arguments_not_valid (img : image) (ycen : list float)
  (lambda_sp lambda_sf : float) (osample : Z) :
  bad_arguments img ycen lambda_sp lambda_sf osample ->
  ~ (img_ncols img = length ycen /\ (0 < osample)%Z /\
     (0 <=? lambda_sf)%float = true /\ (0 <=? lambda_sp)%float = true).
Proof.
  intros Hbad (Hlen & Hos & Hsf & Hsp).
  destruct Hbad as [H | [H | [H | H]]].
  - lia.
  - apply negative_not_leb in H. congruence.
  - apply negative_not_leb in H. congruence.
  - congruence.
Qed.

Lemma bad_geometry_not_valid (img : image) (ycen tilt shear : list float) :
  bad_geometry img ycen tilt shear ->
  ~ (img_ncols img = length tilt /\ img_ncols img = length shear /\
     forallb isfinite ycen = true /\ forallb isfinite tilt = true /\
     forallb isfinite shear = true).
Proof.
  intros Hbad (Ht & Hs & Hfy & Hft & Hfs).
  destruct Hbad as [H | [H | [H | [H | H]]]];
    try congruence; apply has_nonfinite_forallb in H; congruence.
Qed.

(** C6: both entry points fail with the validation error when the
    oversampling factor is not positive, a smoothing weight is negative or the
    trace has not one entry per image column; [slitfunc_curved] fails with it
    also when tilt or shear have not one entry per column or when trace, tilt
    or shear hold a value that is not finite. *)
Theorem validation_errors (vert : vert_in -> vert_out)
  (curved : curved_in -> curved_out) (img : image) (ycen : list float)
  (tilt shear : curvature) (lambda_sp lambda_sf : float) (osample : Z) :
  bad_arguments img ycen lambda_sp lambda_sf osample \/
  bad_geometry img ycen (broadcast (img_ncols img) tilt)
                        (broadcast (img_ncols img) shear) ->
  fst (slitfunc_curved curved img ycen tilt shear lambda_sp lambda_sf osample)
  = Raise AssertionError /\
  (bad_arguments img ycen lambda_sp lambda_sf osample ->
   slitfunc vert img ycen lambda_sp lambda_sf osample = Raise AssertionError).
Proof.
  intros Hbad. split.
  - unfold slitfunc_curved, slitfunc_curved_prepare.
    destruct (slitfunc_curved_validate img ycen
                (broadcast (img_ncols img) tilt)
                (broadcast (img_ncols img) shear)
                lambda_sp lambda_sf osample) as [[] | e] eqn:Hv.
    + apply slitfunc_curved_validate_ok in Hv as [Hargs Hgeo].
      destruct Hbad as [Hbad | Hbad].
      * now apply bad_arguments_not_valid in Hbad.
      * now apply bad_geometry_not_valid in Hbad.
    + apply slitfunc_curved_validate_raise in Hv. now subst e.
  - intros Hargs. unfold slitfunc.
    destruct (slitfunc_validate img ycen lambda_sp lambda_sf osample)
      as [[] | e] eqn:Hv.
    + apply slitfunc_validate_ok in Hv.
      now apply bad_arguments_not_valid in Hargs.
    + apply slitfunc_validate_raise in Hv. now subst e.
Qed.

Lemma validation_errors_witness :
  fst (slitfunc_curved idle_curved (one_pixel 1) [zero]
         (Scalar zero) (Scalar zero) 0 0.125 0) = Raise AssertionError /\
  slitfunc idle_vert (one_pixel 1) [zero] 0 0.125 0 = Raise AssertionError.
Proof.
  assert (Hbad : bad_arguments (one_pixel 1) [zero] 0 0.125 0)
    by (left; apply Z.le_refl).
  destruct (@validation_errors idle_vert idle_curved (one_pixel 1) [zero]
              (Scalar zero) (Scalar zero) 0%float 0.125%float 0%Z
              (or_introl Hbad))
    as [Hc Hs].
  split; [exact Hc | exact (Hs Hbad)].
Defined.

(** ** Calls that return *)

Lemma slitfunc_ok (vert : vert_in -> vert_out) (img : image)
  (ycen : list float) (lambda_sp lambda_sf : float) (osample : Z)
  (res : straight_result) :
  slitfunc vert img ycen lambda_sp lambda_sf osample = Ok res ->
  slitfunc_validate img ycen lambda_sp lambda_sf osample = Ok tt /\
  res = slitfunc_return (img_nrows img) (img_ncols img)
          (Z.to_nat (slit_length osample (img_nrows img)))
          (vert (slitfunc_args img ycen lambda_sp lambda_sf osample)).
Proof.
  unfold slitfunc.
  destruct (slitfunc_validate img ycen lambda_sp lambda_sf osample)
    as [[] | e]; simpl; [| discriminate].
  intros [= <-]. auto.
Qed.

Lemma slitfunc_curved_prepare_ok (img : image) (ycen : list float)
  (tilt shear : curvature) (lambda_sp lambda_sf : float) (osample dx : Z)
  (a : curved_in) :
  fst (slitfunc_curved_prepare img ycen tilt shear lambda_sp lambda_sf osample)
  = Ok (dx, a) ->
  slitfunc_curved_validate img ycen (broadcast (img_ncols img) tilt)
    (broadcast (img_ncols img) shear) lambda_sp lambda_sf osample
  = Ok tt /\
  exists y_lower_lim,
    np_min (map astype_c_int ycen) = Ok y_lower_lim /\
    padding (broadcast (img_ncols img) tilt) (broadcast (img_ncols img) shear)
      (row_offsets (img_nrows img) y_lower_lim) = Ok dx /\
    a = slitfunc_curved_args img (robust_init img) ycen
          (broadcast (img_ncols img) tilt) (broadcast (img_ncols img) shear)
          y_lower_lim dx lambda_sp lambda_sf osample /\
    snd (slitfunc_curved_prepare img ycen tilt shear
           lambda_sp lambda_sf osample)
    = caller_pixels img (robust_init img).
Proof.
  unfold slitfunc_curved_prepare.
  set (tilt' := broadcast (img_ncols img) tilt).
  set (shear' := broadcast (img_ncols img) shear).
  intros H.
  destruct (slitfunc_curved_validate img ycen tilt' shear'
              lambda_sp lambda_sf osample) as [[] | e]; simpl in *;
    [| discriminate].
  split; [reflexivity |].
  destruct (np_min (map astype_c_int ycen)) as [y | e]; simpl in *;
    [| discriminate].
  exists y. split; [reflexivity |].
  destruct (padding tilt' shear' (row_offsets (img_nrows img) y))
    as [d | e]; simpl in *; [| discriminate].
  injection H as <- <-. auto.
Qed.

Lemma slitfunc_curved_ok (curved : curved_in -> curved_out) (img : image)
  (ycen : list float) (tilt shear : curvature) (lambda_sp lambda_sf : float)
  (osample : Z) (res : curved_result) :
  fst (slitfunc_curved curved img ycen tilt shear lambda_sp lambda_sf osample)
  = Ok res ->
  exists dx a,
    fst (slitfunc_curved_prepare img ycen tilt shear
           lambda_sp lambda_sf osample) = Ok (dx, a) /\
    res = slitfunc_curved_return (img_nrows img) (img_ncols img)
            (Z.to_nat (slit_length osample (img_nrows img))) dx (curved a).
Proof.
  unfold slitfunc_curved. simpl.
  destruct (fst (slitfunc_curved_prepare img ycen tilt shear
                   lambda_sp lambda_sf osample)) as [[dx a] | e]; simpl;
    [| discriminate].
  intros [= <-]. now exists dx, a.
Qed.




(** C1, as the code has it: whichever entry point returns, an entry of the
    mask it returns is true exactly where the kernel flagged the pixel as
    rejected (flag 0), and false where the pixel took part in the solve. *)
Theorem returned_mask_flags_rejected (vert : vert_in -> vert_out)
  (curved : curved_in -> curved_out) (img : image) (osample : Z)
  (flags : nat -> nat -> Z) (res : straight_result) (r c : nat) :
  returns vert curved img osample flags res ->
  r < img_nrows img -> c < img_ncols img ->
  get2 false (sr_mask res) r c = negb (used_in_solve (flags r c)).
Proof.
  intros Hret Hr Hc. unfold used_in_solve.
  destruct Hret as [ycen lsp lsf res Hcall | ycen tilt shear lsp lsf dx a res
                                               Hprep Hcall].
  - apply slitfunc_ok in Hcall as [_ ->]. simpl.
    rewrite map_fill2. now rewrite get2_fill2.
  - apply slitfunc_curved_ok in Hcall as (dx' & a' & Hprep' & ->).
    rewrite Hprep in Hprep'. injection Hprep' as <- <-. simpl.
    rewrite map_fill2, get2_fill2 by assumption.
    now rewrite negb_involutive.
Qed.

Lemma returned_mask_flags_rejected_witness :
  get2 false
    (sr_mask (slitfunc_return 1 1 3
                (idle_vert (slitfunc_args (one_pixel 1) [zero] 0 0.125 1))))
    0 0
  = negb (used_in_solve
            (vo_mask (idle_vert (slitfunc_args (one_pixel 1) [zero] 0 0.125 1))
               0 0)).
Proof.
  apply (@returned_mask_flags_rejected idle_vert idle_curved (one_pixel 1) 1).
  - apply (@returns_slitfunc idle_vert idle_curved (one_pixel 1) 1 [zero]
             0%float 0.125%float).
    reflexivity.
  - apply Nat.lt_0_1.
  - apply Nat.lt_0_1.
Defined.

(** C1 as stated fails: on an image of one good pixel, with kernels that
    reject nothing, the pixel takes part in the solve (flag 1) and its entry
    in the returned mask is false, from either entry point. *)
Lemma accept_mask_is_inverted :
  (exists res,
     slitfunc idle_vert (one_pixel 1) [zero] 0 0.125 1 = Ok res /\
     used_in_solve
       (vo_mask (idle_vert (slitfunc_args (one_pixel 1) [zero] 0 0.125 1)) 0 0)
     = true /\
     get2 true (sr_mask res) 0 0 = false) /\
  (exists dx a res,
     fst (slitfunc_curved_prepare (one_pixel 1) [zero]
            (Scalar zero) (Scalar zero) 0 0.125 1) = Ok (dx, a) /\
     fst (slitfunc_curved idle_curved (one_pixel 1) [zero]
            (Scalar zero) (Scalar zero) 0 0.125 1) = Ok res /\
     used_in_solve (co_mask_out (idle_curved a) 0 0) = true /\
     get2 true (cr_mask res) 0 0 = false).
Proof.
  split.
  - eexists. split; [reflexivity |]. split; reflexivity.
  - do 3 eexists. split; [reflexivity |]. split; [reflexivity |].
    split; reflexivity.
Qed.

(** ** Trimming the edges of the spectrum *)

Lemma length_assign_head (k : nat) (v : float) (l : list float) :
  length (assign_head k v l) = length l.
Proof.
  unfold assign_head. rewrite length_app, repeat_length, length_skipn. lia.
Qed.

Lemma length_assign_tail (k : nat) (v : float) (l : list float) :
  length (assign_tail k v l) = length l.
Proof.
  unfold assign_tail. rewrite length_app, repeat_length, length_firstn. lia.
Qed.

Lemma nth_repeat_within (v d : float) (n i : nat) :
  i < n -> nth i (repeat v n) d = v.
Proof.
  intros Hi. rewrite (nth_indep _ d v) by now rewrite repeat_length.
  apply nth_repeat.
Qed.

Lemma nth_assign_head (k : nat) (v : float) (l : list float) (i : nat) :
  i < k -> i < length l -> get1 (assign_head k v l) i = v.
Proof.
  intros Hk Hl. unfold get1, assign_head.
  rewrite app_nth1 by (rewrite repeat_length; lia).
  apply nth_repeat_within. lia.
Qed.

Lemma nth_assign_tail_back (k : nat) (v : float) (l : list float) (i : nat) :
  length l - k <= i -> i < length l -> get1 (assign_tail k v l) i = v.
Proof.
  intros Hk Hl. unfold get1, assign_tail.
  rewrite app_nth2 by (rewrite length_firstn; lia).
  apply nth_repeat_within. rewrite length_firstn. lia.
Qed.

Lemma nth_assign_tail_front (k : nat) (v : float) (l : list float) (i : nat) :
  i < length l - k -> get1 (assign_tail k v l) i = get1 l i.
Proof.
  intros Hk. unfold get1, assign_tail.
  rewrite app_nth1 by (rewrite length_firstn; lia).
  rewrite nth_firstn.
  destruct (Nat.ltb_spec i (length l - k)); [reflexivity | lia].
Qed.

Lemma length_trim_edges (dx : Z) (sp : list float) :
  length (trim_edges dx sp) = length sp.
Proof.
  unfold trim_edges. destruct (0 <? dx)%Z; [| reflexivity].
  now rewrite length_assign_tail, length_assign_head.
Qed.

Lemma trim_edges_zero (dx : Z) (sp : list float) (i : nat) :
  (0 < dx)%Z -> (Z.of_nat i < dx)%Z -> i < length sp ->
  get1 (trim_edges dx sp) i = zero /\
  get1 (trim_edges dx sp) (length sp - 1 - i) = zero.
Proof.
  intros Hdx Hi Hlen. unfold trim_edges.
  apply Z.ltb_lt in Hdx as Hpos. rewrite Hpos.
  set (k := Z.to_nat dx). assert (Hk : i < k) by (unfold k; lia).
  set (l := assign_head k zero sp).
  assert (Hl : length l = length sp) by apply length_assign_head.
  split.
  - destruct (Nat.lt_ge_cases i (length l - k)) as [Hfront | Hback].
    + rewrite nth_assign_tail_front by assumption.
      apply nth_assign_head; assumption.
    + apply nth_assign_tail_back; lia.
  - apply nth_assign_tail_back; lia.
Qed.

(** C4: when [slitfunc_curved] returns and the padding [dx] it computed is
    greater than zero, the first [dx] and the last [dx] entries of the returned
    spectrum, which has one entry per image column, are exactly zero. *)
Theorem spectrum_edges_zero (curved : curved_in -> curved_out) (img : image)
  (ycen : list float) (tilt shear : curvature) (lambda_sp lambda_sf : float)
  (osample dx : Z) (a : curved_in) (res : curved_result) (i : nat) :
  fst (slitfunc_curved_prepare img ycen tilt shear lambda_sp lambda_sf osample)
  = Ok (dx, a) ->
  fst (slitfunc_curved curved img ycen tilt shear lambda_sp lambda_sf osample)
  = Ok res ->
  (0 < dx)%Z -> (Z.of_nat i < dx)%Z -> i < img_ncols img ->
  length (cr_sp res) = img_ncols img /\
  get1 (cr_sp res) i = zero /\
  get1 (cr_sp res) (img_ncols img - 1 - i) = zero.
Proof.
  intros Hprep Hcall Hdx Hi Hcol.
  apply slitfunc_curved_ok in Hcall as (dx' & a' & Hprep' & ->).
  rewrite Hprep in Hprep'. injection Hprep' as <- <-. simpl.
  set (sp := fill1 (img_ncols img) (co_sp (curved a))).
  assert (Hlen : length sp = img_ncols img) by apply length_fill1.
  split; [now rewrite length_trim_edges |].
  rewrite <- Hlen. apply trim_edges_zero; [assumption | assumption | lia].
Qed.

Lemma spectrum_edges_zero_witness :
  exists res,
    fst (slitfunc_curved idle_curved small_image [zero; zero]
           (Scalar 0.5) (Scalar zero) 0 0.125 1) = Ok res /\
    length (cr_sp res) = img_ncols small_image /\
    get1 (cr_sp res) 0 = zero /\
    get1 (cr_sp res) (img_ncols small_image - 1 - 0) = zero.
Proof.
  pose (a := slitfunc_curved_args small_image (robust_init small_image)
               [zero; zero] [0.5; 0.5]%float [zero; zero] 0 2 0 0.125 1).
  exists (slitfunc_curved_return 3 2 5 2 (idle_curved a)).
  split; [reflexivity |].
  apply (@spectrum_edges_zero idle_curved small_image [zero; zero]
           (Scalar 0.5) (Scalar zero) 0%float 0.125%float 1%Z 2%Z a).
  - reflexivity.
  - reflexivity.
  - reflexivity.
  - reflexivity.
  - apply Nat.lt_0_2.
Defined.

(** ** Pixels that are not finite *)

Lemma cleaned_pixel_finite (img : image) (r c : nat) :
  isfinite (Initializer.cleaned_pixel img r c) = true.
Proof.
  unfold Initializer.cleaned_pixel, Initializer.rejected, Initializer.invalid.
  destruct (get2 false (getmaskarray img) r c); [reflexivity |].
  destruct (isfinite (Initializer.pixel img r c)) eqn:Hfin; [| reflexivity].
  simpl. now destruct (Initializer.clipped img r c).
Qed.

Lemma nonfinite_rejected (img : image) (r c : nat) :
  isfinite (Initializer.pixel img r c) = false ->
  Initializer.rejected img r c = true.
Proof.
  intros H. unfold Initializer.rejected, Initializer.invalid. rewrite H.
  simpl. now rewrite orb_true_r.
Qed.

(** The curved path rejects every pixel that is not finite before it calls the
    kernel: the pixel is flagged 0 in the mask and zero in the image that the
    kernel is handed. *)
Lemma slitfunc_curved_rejects_nonfinite (img : image) (ycen : list float)
  (tilt shear : curvature) (lambda_sp lambda_sf : float) (osample dx : Z)
  (a : curved_in) (r c : nat) :
  wf_image img ->
  fst (slitfunc_curved_prepare img ycen tilt shear lambda_sp lambda_sf osample)
  = Ok (dx, a) ->
  r < img_nrows img -> c < img_ncols img ->
  isfinite (Initializer.pixel img r c) = false ->
  get2 1%Z (ci_mask a) r c = 0%Z /\ get2 zero (ci_im a) r c = zero.
Proof.
  intros Hwf Hprep Hr Hc Hfin.
  apply slitfunc_curved_prepare_ok in Hprep as (_ & y & _ & _ & -> & _).
  unfold slitfunc_curved_args. cbn [ci_mask ci_im].
  rewrite (robust_init_mask Hwf), (robust_init_img Hwf), map_fill2.
  rewrite !get2_fill2 by assumption.
  unfold Initializer.cleaned_pixel.
  now rewrite (nonfinite_rejected img r c Hfin).
Qed.

(** C5 fails on the straight path: [slitfunc] hands a pixel that is not
    finite to the kernel as it is, flagged 1 as a pixel to use; nothing in
    the wrapper rejects it, and with a kernel that rejects nothing the call
    returns it as not rejected.  On the same image the curved path flags the
    pixel 0. *)
Theorem slitfunc_keeps_nonfinite_pixel :
  let a := slitfunc_args (one_pixel nan) [zero] 0 0.125 1 in
  isfinite (Initializer.pixel (one_pixel nan) 0 0) = false /\
  isfinite (get2 zero (vi_im a) 0 0) = false /\
  get2 0%Z (vi_mask a) 0 0 = 1%Z /\
  (exists res,
     slitfunc idle_vert (one_pixel nan) [zero] 0 0.125 1 = Ok res /\
     get2 true (sr_mask res) 0 0 = false) /\
  (exists dx b,
     fst (slitfunc_curved_prepare (one_pixel nan) [zero]
            (Scalar zero) (Scalar zero) 0 0.125 1) = Ok (dx, b) /\
     get2 1%Z (ci_mask b) 0 0 = 0%Z).
Proof.
  repeat split.
  - eexists. split; reflexivity.
  - do 2 eexists. split; reflexivity.
Qed.

(** ** The uncertainty of the pixels *)

(** C8, as the code has it: [slitfunc_curved] hands to the kernel, as the
    uncertainty of every pixel of the cleaned working image, the square root
    of the absolute value of that pixel; [slitfunc] hands over an array of
    zeros of the shape of the image. *)
Theorem pixel_uncertainty_basis (img : image) (ycen : list float)
  (tilt shear : curvature) (lambda_sp lambda_sf : float) (osample dx : Z)
  (a : curved_in) :
  wf_image img ->
  fst (slitfunc_curved_prepare img ycen tilt shear lambda_sp lambda_sf osample)
  = Ok (dx, a) ->
  ci_im a
  = fill2 (img_nrows img) (img_ncols img) (Initializer.cleaned_pixel img) /\
  ci_pix_unc a
  = fill2 (img_nrows img) (img_ncols img)
      (fun r c => sqrt (abs (Initializer.cleaned_pixel img r c))) /\
  vi_pix_unc (slitfunc_args img ycen lambda_sp lambda_sf osample)
  = fill2 (img_nrows img) (img_ncols img) (fun _ _ => zero).
Proof.
  intros Hwf Hprep.
  apply slitfunc_curved_prepare_ok in Hprep as (_ & y & _ & _ & -> & _).
  unfold slitfunc_curved_args, slitfunc_args, pixel_uncertainty.
  cbn [ci_im ci_pix_unc vi_pix_unc].
  rewrite (robust_init_img Hwf). split; [reflexivity |]. split.
  - rewrite map_fill2. apply fill2_ext. intros r c _ _.
    now rewrite cleaned_pixel_finite.
  - rewrite (image_as_fill2 Hwf) at 1. now rewrite map_fill2.
Qed.

Lemma pixel_uncertainty_basis_witness :
  let a := slitfunc_curved_args small_image (robust_init small_image)
             [zero; zero] [0.5; 0.5]%float [zero; zero] 0 2 0 0.125 1 in
  ci_im a = fill2 3 2 (Initializer.cleaned_pixel small_image) /\
  ci_pix_unc a
  = fill2 3 2 (fun r c => sqrt (abs (Initializer.cleaned_pixel small_image r c)))
  /\
  vi_pix_unc (slitfunc_args small_image [zero; zero] 0 0.125 1)
  = fill2 3 2 (fun _ _ => zero).
Proof.
  intros a.
  apply (@pixel_uncertainty_basis small_image [zero; zero]
           (Scalar 0.5) (Scalar zero) 0%float 0.125%float 1%Z 2%Z a).
  - exact wf_small_image.
  - reflexivity.
Defined.

(** C8 as stated fails.  A pixel of value -4 that survives the clip of the
    curved path gets the uncertainty 2, not [sqrt(max(-4, 0)) = 0]; on the
    straight path a pixel of value 4 gets the uncertainty 0, not 2. *)
Lemma uncertainty_is_not_clipped_sqrt :
  (exists dx a,
     fst (slitfunc_curved_prepare (one_pixel (-4)) [zero]
            (Scalar zero) (Scalar zero) 0 0.125 1) = Ok (dx, a) /\
     get2 zero (ci_im a) 0 0 = (-4)%float /\
     get2 zero (ci_pix_unc a) 0 0 = 2%float /\
     clipped_sqrt (get2 zero (ci_im a) 0 0) = 0%float) /\
  (let a := slitfunc_args (one_pixel 4) [zero] 0 0.125 1 in
   get2 zero (vi_im a) 0 0 = 4%float /\
   get2 zero (vi_pix_unc a) 0 0 = 0%float /\
   clipped_sqrt (get2 zero (vi_im a) 0 0) = 2%float).
Proof.
  split.
  - do 2 eexists. split; [reflexivity |]. repeat split.
  - repeat split.
Qed.

(** ** The image of the caller *)

Lemma slitfunc_curved_prepare_snd (img : image) (ycen : list float)
  (tilt shear : curvature) (lambda_sp lambda_sf : float) (osample : Z) :
  let p := slitfunc_curved_prepare img ycen tilt shear
             lambda_sp lambda_sf osample in
  (is_ok (fst p) = false /\ snd p = img_data img) \/
  snd p = caller_pixels img (robust_init img).
Proof.
  unfold slitfunc_curved_prepare.
  destruct (_ <- slitfunc_curved_validate img ycen
                   (broadcast (img_ncols img) tilt)
                   (broadcast (img_ncols img) shear)
                   lambda_sp lambda_sf osample ;;
            np_min (map astype_c_int ycen)) as [y | e]; simpl; auto.
Qed.

Lemma caller_pixel_after (img : image) (r c : nat) :
  wf_image img -> r < img_nrows img -> c < img_ncols img ->
  get2 zero (caller_pixels img (robust_init img)) r c
  = if img_is_double img && Initializer.rejected img r c then zero
    else Initializer.pixel img r c.
Proof.
  intros Hwf Hr Hc. unfold caller_pixels.
  destruct (img_is_double img); cbn [andb]; [| reflexivity].
  rewrite (robust_init_img Hwf), get2_fill2 by assumption.
  reflexivity.
Qed.

(** C2, as the code has it: after a call to [slitfunc_curved] on a well-formed
    image, a pixel that was neither masked, nor not finite, nor rejected by
    the 6-sigma clip holds the value it held before; no pixel changes when the
    image is not an array of doubles (the wrapper then works on a converted
    copy); when it is one and the call returns, every pixel that was masked,
    not finite or rejected by the clip holds zero. *)
Theorem caller_image_after_call (curved : curved_in -> curved_out)
  (img : image) (ycen : list float) (tilt shear : curvature)
  (lambda_sp lambda_sf : float) (osample : Z) (r c : nat) :
  wf_image img -> r < img_nrows img -> c < img_ncols img ->
  let call := slitfunc_curved curved img ycen tilt shear
                lambda_sp lambda_sf osample in
  (Initializer.rejected img r c = false ->
   get2 zero (snd call) r c = Initializer.pixel img r c) /\
  (img_is_double img = false -> snd call = img_data img) /\
  (img_is_double img = true -> is_ok (fst call) = true ->
   Initializer.rejected img r c = true ->
   get2 zero (snd call) r c = zero).
Proof.
  intros Hwf Hr Hc call.
  assert (Hsnd : snd call = snd (slitfunc_curved_prepare img ycen tilt shear
                                   lambda_sp lambda_sf osample))
    by reflexivity.
  assert (Hok : is_ok (fst call) = true ->
                is_ok (fst (slitfunc_curved_prepare img ycen tilt shear
                              lambda_sp lambda_sf osample)) = true).
  { unfold call, slitfunc_curved. simpl.
    now destruct (fst (slitfunc_curved_prepare img ycen tilt shear
                         lambda_sp lambda_sf osample)). }
  rewrite Hsnd.
  destruct (slitfunc_curved_prepare_snd img ycen tilt shear
              lambda_sp lambda_sf osample) as [[Hfail ->] | ->].
  - repeat split; auto.
    intros _ Hcall. apply Hok in Hcall. congruence.
  - rewrite (caller_pixel_after Hwf Hr Hc). repeat split.
    + intros ->. now rewrite andb_false_r.
    + intros Hd. unfold caller_pixels. now rewrite Hd.
    + intros -> _ ->. reflexivity.
Qed.

Lemma caller_image_after_call_witness :
  let call := slitfunc_curved idle_curved small_image [zero; zero]
                (Scalar 0.5) (Scalar zero) 0 0.125 1 in
  (Initializer.rejected small_image 1 0 = false ->
   get2 zero (snd call) 1 0 = Initializer.pixel small_image 1 0) /\
  (img_is_double small_image = false -> snd call = img_data small_image) /\
  (img_is_double small_image = true -> is_ok (fst call) = true ->
   Initializer.rejected small_image 1 0 = true ->
   get2 zero (snd call) 1 0 = zero).
Proof.
  apply (@caller_image_after_call idle_curved small_image [zero; zero]
           (Scalar 0.5) (Scalar zero) 0%float 0.125%float 1%Z 1 0).
  - exact wf_small_image.
  - unfold img_nrows. simpl. lia.
  - simpl. lia.
Defined.

(** C2 as stated fails: the call returns, and the one pixel of the caller's
    array of doubles, infinite before the call, holds zero after it. *)
Lemma caller_image_is_overwritten :
  let call := slitfunc_curved idle_curved (one_pixel infinity) [zero]
                (Scalar zero) (Scalar zero) 0 0.125 1 in
  is_ok (fst call) = true /\
  isfinite (Initializer.pixel (one_pixel infinity) 0 0) = false /\
  snd call = [[zero]] /\
  snd call <> img_data (one_pixel infinity).
Proof.
  repeat split.
  intros H.
  apply (f_equal (fun M => isfinite (get2 zero M 0 0))) in H.
  vm_compute in H. discriminate.
Qed.

(** ** The trace of the straight path *)

(** C10, as the code has it: [slitfunc] depends on the trace only through the
    value [ycen - int(ycen)] it computes, in double precision, for every
    column: two traces that agree on it give the same results. *)
Theorem slitfunc_depends_on_fractional_trace (vert : vert_in -> vert_out)
  (img : image) (ycen ycen' : list float) (lambda_sp lambda_sf : float)
  (osample : Z) :
  map fractional ycen = map fractional ycen' ->
  slitfunc vert img ycen lambda_sp lambda_sf osample
  = slitfunc vert img ycen' lambda_sp lambda_sf osample.
Proof.
  intros Hfrac.
  assert (Hlen : length ycen = length ycen').
  { apply (f_equal (@length float)) in Hfrac. now rewrite !length_map in Hfrac. }
  unfold slitfunc, slitfunc_validate, slitfunc_args.
  now rewrite Hlen, Hfrac.
Qed.

Lemma slitfunc_depends_on_fractional_trace_witness :
  map fractional [0.5]%float = map fractional [1.5]%float /\
  slitfunc idle_vert (one_pixel 1) [0.5]%float 0 0.125 1
  = slitfunc idle_vert (one_pixel 1) [1.5]%float 0 0.125 1.
Proof.
  split; [reflexivity |].
  apply (@slitfunc_depends_on_fractional_trace idle_vert (one_pixel 1)
           [0.5]%float [1.5]%float 0%float 0.125%float 1%Z).
  reflexivity.
Defined.

(** C10 as stated fails.  For the trace 0.1 (the double
    [0x1.999999999999ap-4], which is [>= 0]) and the integer 1, the sum
    [ycen + k] is rounded to the double nearest 1.1, so that the kernel is
    handed the fraction [0x1.99999999999ap-4] (0.10000000000000009) in place
    of 0.1; a kernel that reports the trace it was handed makes the two calls
    return different results. *)
Lemma shifted_trace_changes_results :
  let ycen := [0x1.999999999999ap-4]%float in
  let k := [1%Z] in
  forallb (fun y => (0 <=? y)%float) ycen = true /\
  forallb (fun n => (0 <=? n)%Z) k = true /\
  map fractional ycen = [0x1.999999999999ap-4]%float /\
  map fractional (shift_trace ycen k) = [0x1.99999999999ap-4]%float /\
  slitfunc echo_vert (one_pixel 1) (shift_trace ycen k) 0 0.125 1
  <> slitfunc echo_vert (one_pixel 1) ycen 0 0.125 1.
Proof.
  repeat split.
  intros H.
  apply (f_equal (fun res =>
                    match res with
                    | Ok x => (get1 (sr_unc x) 0 =? 0x1.999999999999ap-4)%float
                    | Raise _ => false
                    end)) in H.
  vm_compute in H. discriminate.
Qed.

(** ** The order of the doubles *)

Lemma is_nan_spec (x : float) :
  PrimFloat.is_nan x = match Prim2SF x with S754_nan => true | _ => false end.
Proof.
  unfold PrimFloat.is_nan. rewrite eqb_spec. unfold SFeqb, SFcompare.
  destruct (Prim2SF x) as [s | s | | s m e]; try destruct s; simpl;
    try reflexivity;
    rewrite Z.compare_refl;
    change (Pos.compare_cont Eq m m) with (Pos.compare m m);
    now rewrite Pos.compare_refl.
Qed.










(** ** The maximum of an array *)


Lemma np_maximum_cases (a b : float) :
  np_maximum a b = a \/ np_maximum a b = b.
Proof.
  unfold np_maximum.
  destruct (PrimFloat.is_nan a); [auto |].
  destruct (PrimFloat.is_nan b); [auto |].
  destruct (a <? b)%float; auto.
Qed.


Lemma fold_np_maximum_in (t : list float) (x : float) :
  In (fold_left np_maximum t x) (x :: t).
Proof.
  revert x. induction t as [|y t IH]; intros x; simpl; [auto |].
  destruct (IH (np_maximum x y)) as [H | H]; [| auto].
  simpl in H. destruct (np_maximum_cases x y) as [E | E]; rewrite E in *; auto.
Qed.



(** ** The ceiling *)


Lemma ceil_mag_nonneg (m : positive) (e : Z) : (0 <= ceil_mag m e)%Z.
Proof.
  unfold ceil_mag. destruct (0 <=? e)%Z eqn:He.
  - apply Z.leb_le in He.
    assert (0 <= 2 ^ e)%Z by now apply Z.pow_nonneg. nia.
  - apply Z.leb_gt in He.
    assert (Hd : (0 < 2 ^ (- e))%Z) by (apply Z.pow_pos_nonneg; lia).
    pose proof (Z.div_mod (- Z.pos m) (2 ^ (- e))) as Hdiv.
    pose proof (Z.mod_pos_bound (- Z.pos m) (2 ^ (- e)) Hd) as Hmod.
    specialize (Hdiv ltac:(lia)). nia.
Qed.

(** The ceiling of an absolute value is not negative. *)
Lemma int_ceil_abs_nonneg (v : float) (n : Z) :
  int_ceil (abs v) = Ok n -> (0 <= n)%Z.
Proof.
  unfold int_ceil. rewrite abs_spec.
  destruct (Prim2SF v) as [s | s | | s m e]; simpl; try discriminate.
  - intros [= <-]. lia.
  - intros [= <-]. apply ceil_mag_nonneg.
Qed.


(** ** The horizontal displacement over the rows of the patch *)










(** * Further properties of the wrappers *)

(** ** The outcomes of a call *)


Lemma leb_nan (x y : float) :
  PrimFloat.is_nan y = true -> (x <=? y)%float = false.
Proof.
  rewrite is_nan_spec, leb_spec. unfold SFleb, SFcompare.
  destruct (Prim2SF y); try discriminate.
  now destruct (Prim2SF x).
Qed.

(** X2: a smoothing weight that is NaN is refused by both entry points, with
    the validation error. *)
Theorem nan_smoothing_refused (vert : vert_in -> vert_out)
  (curved : curved_in -> curved_out) (img : image) (ycen : list float)
  (tilt shear : curvature) (lambda_sp lambda_sf : float) (osample : Z) :
  PrimFloat.is_nan lambda_sf = true \/ PrimFloat.is_nan lambda_sp = true ->
  slitfunc vert img ycen lambda_sp lambda_sf osample = Raise AssertionError /\
  fst (slitfunc_curved curved img ycen tilt shear lambda_sp lambda_sf osample)
  = Raise AssertionError.
Proof.
  intros Hnan.
  assert (Hbad : ~ ((0 <=? lambda_sf)%float = true /\
                    (0 <=? lambda_sp)%float = true)).
  { intros [Hsf Hsp].
    destruct Hnan as [H | H]; apply (leb_nan 0) in H; congruence. }
  split.
  - unfold slitfunc.
    destruct (slitfunc_validate img ycen lambda_sp lambda_sf osample)
      as [[] | e] eqn:Hv.
    + apply slitfunc_validate_ok in Hv as (_ & _ & Hsf & Hsp).
      exfalso. auto.
    + apply slitfunc_validate_raise in Hv. now subst e.
  - unfold slitfunc_curved, slitfunc_curved_prepare.
    destruct (slitfunc_curved_validate img ycen
                (broadcast (img_ncols img) tilt)
                (broadcast (img_ncols img) shear)
                lambda_sp lambda_sf osample) as [[] | e] eqn:Hv.
    + apply slitfunc_curved_validate_ok in Hv as [(_ & _ & Hsf & Hsp) _].
      exfalso. auto.
    + apply slitfunc_curved_validate_raise in Hv. now subst e.
Qed.

Lemma nan_smoothing_refused_witness :
  slitfunc idle_vert (one_pixel 1) [zero] 0 nan 1 = Raise AssertionError /\
  fst (slitfunc_curved idle_curved (one_pixel 1) [zero]
         (Scalar zero) (Scalar zero) 0 nan 1) = Raise AssertionError.
Proof.
  apply (@nan_smoothing_refused idle_vert idle_curved (one_pixel 1) [zero]
           (Scalar zero) (Scalar zero) 0%float nan 1%Z).
  left. reflexivity.
Defined.

(** X3: an image without columns passes the assertions of [slitfunc_curved]
    with an empty trace, but the call then raises [ValueError] (the minimum
    of an empty array), before the image is touched. *)
Theorem columnless_image_raises (curved : curved_in -> curved_out)
  (img : image) (ycen : list float) (tilt shear : curvature)
  (lambda_sp lambda_sf : float) (osample : Z) :
  img_ncols img = 0 ->
  slitfunc_curved_validate img ycen (broadcast (img_ncols img) tilt)
    (broadcast (img_ncols img) shear) lambda_sp lambda_sf osample = Ok tt ->
  slitfunc_curved curved img ycen tilt shear lambda_sp lambda_sf osample
  = (Raise ValueError, img_data img).
Proof.
  intros Hcols Hv. unfold slitfunc_curved, slitfunc_curved_prepare.
  rewrite Hv.
  apply slitfunc_curved_validate_ok in Hv as [(Hlen & _) _].
  rewrite Hcols in Hlen. symmetry in Hlen. apply length_zero_iff_nil in Hlen.
  subst ycen. reflexivity.
Qed.

Lemma columnless_image_raises_witness :
  slitfunc_curved idle_curved columnless_image [] (Scalar zero) (Scalar zero)
    0 0.125 1
  = (Raise ValueError, img_data columnless_image).
Proof.
  apply (@columnless_image_raises idle_curved columnless_image []
           (Scalar zero) (Scalar zero) 0%float 0.125%float 1%Z);
    reflexivity.
Defined.

Lemma padding_raise (tilt shear : list float) (yy : list Z) (e : exn) :
  padding tilt shear yy = Raise e -> e = ValueError \/ e = OverflowError.
Proof.
  unfold padding.
  destruct (np_max _) as [M | e'] eqn:Hmax; simpl.
  - unfold int_ceil. destruct (Prim2SF M); intros [= <-]; auto.
  - intros [= <-]. destruct (concat _); [| discriminate].
    injection Hmax as <-. auto.
Qed.

(** X4: a call to [slitfunc_curved] that fails with the validation error
    leaves every pixel of the caller's image as it was. *)
Theorem refused_call_keeps_image (curved : curved_in -> curved_out)
  (img : image) (ycen : list float) (tilt shear : curvature)
  (lambda_sp lambda_sf : float) (osample : Z) :
  fst (slitfunc_curved curved img ycen tilt shear lambda_sp lambda_sf osample)
  = Raise AssertionError ->
  snd (slitfunc_curved curved img ycen tilt shear lambda_sp lambda_sf osample)
  = img_data img.
Proof.
  unfold slitfunc_curved, slitfunc_curved_prepare.
  destruct (_ <- slitfunc_curved_validate img ycen
                   (broadcast (img_ncols img) tilt)
                   (broadcast (img_ncols img) shear)
                   lambda_sp lambda_sf osample ;;
            np_min (map astype_c_int ycen)) as [y | e]; simpl;
    [| reflexivity].
  destruct (padding _ _ _) as [dx | e] eqn:Hpad; simpl; [discriminate |].
  intros [= ->]. apply padding_raise in Hpad as [H | H]; discriminate.
Qed.

Lemma refused_call_keeps_image_witness :
  snd (slitfunc_curved idle_curved small_image [zero]
         (Scalar zero) (Scalar zero) 0 0.125 1)
  = img_data small_image.
Proof.
  apply (@refused_call_keeps_image idle_curved small_image [zero]
           (Scalar zero) (Scalar zero) 0%float 0.125%float 1%Z).
  reflexivity.
Defined.

(** X5: a call to [slitfunc_curved] that fails with [OverflowError], a
    displacement being infinite, has by then cleaned the caller's array of
    doubles in place: every rejected pixel holds zero although the call
    returned nothing. *)
Theorem overflowing_call_has_cleaned_image (curved : curved_in -> curved_out)
  (img : image) (ycen : list float) (tilt shear : curvature)
  (lambda_sp lambda_sf : float) (osample : Z) (r c : nat) :
  wf_image img -> img_is_double img = true ->
  fst (slitfunc_curved curved img ycen tilt shear lambda_sp lambda_sf osample)
  = Raise OverflowError ->
  r < img_nrows img -> c < img_ncols img ->
  get2 zero
    (snd (slitfunc_curved curved img ycen tilt shear
            lambda_sp lambda_sf osample)) r c
  = Initializer.cleaned_pixel img r c.
Proof.
  intros Hwf Hdouble Hcall Hr Hc.
  assert (Hsnd : snd (slitfunc_curved curved img ycen tilt shear
                        lambda_sp lambda_sf osample)
                 = caller_pixels img (robust_init img)).
  { revert Hcall. unfold slitfunc_curved, slitfunc_curved_prepare.
    destruct (slitfunc_curved_validate img ycen
                (broadcast (img_ncols img) tilt)
                (broadcast (img_ncols img) shear)
                lambda_sp lambda_sf osample) as [[] | e] eqn:Hv; simpl.
    - destruct (np_min (map astype_c_int ycen)) as [y | e] eqn:Hmin; simpl;
        [reflexivity |].
      intros [= ->]. destruct (map astype_c_int ycen); discriminate.
    - intros [= ->]. apply slitfunc_curved_validate_raise in Hv. discriminate. }
  rewrite Hsnd. unfold caller_pixels. rewrite Hdouble.
  now rewrite (robust_init_img Hwf), get2_fill2.
Qed.

Lemma overflowing_call_has_cleaned_image_witness :
  get2 zero
    (snd (slitfunc_curved idle_curved small_image [zero; zero]
            (Scalar 0x1p1023) (Scalar zero) 0 0.125 1)) 1 0
  = Initializer.cleaned_pixel small_image 1 0.
Proof.
  apply (@overflowing_call_has_cleaned_image idle_curved small_image
           [zero; zero] (Scalar 0x1p1023) (Scalar zero)
           0%float 0.125%float 1%Z 1 0).
  - exact wf_small_image.
  - reflexivity.
  - reflexivity.
  - unfold img_nrows. simpl. lia.
  - simpl. lia.
Defined.






(** ** The shape of the results *)



(** ** The spectrum between and beyond the edges *)

Lemma nth_assign_head_beyond (k : nat) (v : float) (l : list float) (i : nat) :
  k <= i -> get1 (assign_head k v l) i = get1 l i.
Proof.
  intros Hk. unfold get1, assign_head.
  destruct (Nat.lt_ge_cases i (length l)) as [Hi | Hi].
  - rewrite app_nth2 by (rewrite repeat_length; lia).
    rewrite repeat_length, nth_skipn. f_equal. lia.
  - rewrite (nth_overflow l) by assumption.
    apply nth_overflow.
    rewrite length_app, repeat_length, length_skipn. lia.
Qed.

Lemma trim_edges_interior (dx : Z) (sp : list float) (i : nat) :
  (dx <= Z.of_nat i)%Z -> (Z.of_nat i < Z.of_nat (length sp) - dx)%Z ->
  get1 (trim_edges dx sp) i = get1 sp i.
Proof.
  intros Hlo Hhi. unfold trim_edges.
  destruct (Z.ltb_spec 0 dx) as [Hdx | Hdx]; [| reflexivity].
  rewrite nth_assign_tail_front by (rewrite length_assign_head; lia).
  apply nth_assign_head_beyond. lia.
Qed.

(** X8: between the two edges of width [dx], [slitfunc_curved] returns the
    spectrum as the kernel computed it. *)
Theorem spectrum_interior_kept (curved : curved_in -> curved_out) (img : image)
  (ycen : list float) (tilt shear : curvature) (lambda_sp lambda_sf : float)
  (osample dx : Z) (a : curved_in) (res : curved_result) (i : nat) :
  fst (slitfunc_curved_prepare img ycen tilt shear lambda_sp lambda_sf osample)
  = Ok (dx, a) ->
  fst (slitfunc_curved curved img ycen tilt shear lambda_sp lambda_sf osample)
  = Ok res ->
  (dx <= Z.of_nat i)%Z -> (Z.of_nat i < Z.of_nat (img_ncols img) - dx)%Z ->
  get1 (cr_sp res) i = co_sp (curved a) i.
Proof.
  intros Hprep Hcall Hlo Hhi.
  apply slitfunc_curved_ok in Hcall as (dx' & a' & Hprep' & ->).
  rewrite Hprep in Hprep'. injection Hprep' as <- <-. simpl.
  assert (Hdx : (0 <= dx)%Z).
  { apply slitfunc_curved_prepare_ok in Hprep as (_ & y & _ & Hpad & _).
    unfold padding in Hpad.
    destruct (np_max _) as [M | e] eqn:Hmax; simpl in Hpad; [| discriminate].
    destruct (concat _) as [|x t] eqn:Hl; [discriminate |].
    assert (HM : In M (concat (map (map abs)
                   (displacement (broadcast (img_ncols img) tilt)
                      (broadcast (img_ncols img) shear)
                      (row_offsets (img_nrows img) y))))).
    { rewrite Hl. injection Hmax as <-. apply fold_np_maximum_in. }
    apply in_concat in HM as (row & Hrow & HM).
    apply in_map_iff in Hrow as (row' & <- & _).
    apply in_map_iff in HM as (v & <- & _).
    now apply int_ceil_abs_nonneg in Hpad. }
  rewrite trim_edges_interior by (rewrite ?length_fill1; lia).
  unfold get1. apply nth_fill1. lia.
Qed.

Lemma spectrum_interior_kept_witness :
  let a := slitfunc_curved_args small_image (robust_init small_image)
             [zero; zero] [zero; zero] [zero; zero] 0 0 0 0.125 1 in
  get1 (cr_sp (slitfunc_curved_return 3 2 5 0 (idle_curved a))) 1
  = co_sp (idle_curved a) 1.
Proof.
  intros a.
  apply (@spectrum_interior_kept idle_curved small_image [zero; zero]
           (Scalar zero) (Scalar zero) 0%float 0.125%float 1%Z 0%Z a
           (slitfunc_curved_return 3 2 5 0 (idle_curved a)) 1).
  - reflexivity.
  - reflexivity.
  - simpl. lia.
  - simpl. lia.
Defined.

(** X9: when the padding [dx] is positive and covers at least half of the
    columns, every entry of the spectrum [slitfunc_curved] returns is zero. *)
Theorem spectrum_all_zero_under_wide_padding (curved : curved_in -> curved_out)
  (img : image) (ycen : list float) (tilt shear : curvature)
  (lambda_sp lambda_sf : float) (osample dx : Z) (a : curved_in)
  (res : curved_result) (i : nat) :
  fst (slitfunc_curved_prepare img ycen tilt shear lambda_sp lambda_sf osample)
  = Ok (dx, a) ->
  fst (slitfunc_curved curved img ycen tilt shear lambda_sp lambda_sf osample)
  = Ok res ->
  (0 < dx)%Z -> (Z.of_nat (img_ncols img) <= 2 * dx)%Z -> i < img_ncols img ->
  get1 (cr_sp res) i = zero.
Proof.
  intros Hprep Hcall Hdx Hwide Hi.
  apply slitfunc_curved_ok in Hcall as (dx' & a' & Hprep' & ->).
  rewrite Hprep in Hprep'. injection Hprep' as <- <-. simpl.
  set (sp := fill1 (img_ncols img) (co_sp (curved a))).
  assert (Hlen : length sp = img_ncols img) by apply length_fill1.
  destruct (Z.lt_ge_cases (Z.of_nat i) dx) as [Hleft | Hright].
  - apply trim_edges_zero; [assumption | assumption | lia].
  - replace i with (length sp - 1 - (img_ncols img - 1 - i)) by lia.
    apply trim_edges_zero; [assumption | lia | lia].
Qed.

Lemma spectrum_all_zero_under_wide_padding_witness :
  let a := slitfunc_curved_args small_image (robust_init small_image)
             [zero; zero] [0.5; 0.5]%float [zero; zero] 0 2 0 0.125 1 in
  get1 (cr_sp (slitfunc_curved_return 3 2 5 2 (idle_curved a))) 1 = zero.
Proof.
  intros a.
  apply (@spectrum_all_zero_under_wide_padding idle_curved small_image
           [zero; zero] (Scalar 0.5) (Scalar zero) 0%float 0.125%float 1%Z
           2%Z a (slitfunc_curved_return 3 2 5 2 (idle_curved a)) 1).
  - reflexivity.
  - reflexivity.
  - lia.
  - simpl. lia.
  - simpl. lia.
Defined.

(** ** What the kernel of the curved path is handed *)

(** X10: the image [slitfunc_curved] hands to its kernel is finite
    everywhere; a rejected pixel is flagged 0 in the mask and holds zero, any
    other pixel is flagged 1 and holds its input value. *)
Theorem kernel_image_is_clean (img : image) (ycen : list float)
  (tilt shear : curvature) (lambda_sp lambda_sf : float) (osample dx : Z)
  (a : curved_in) (r c : nat) :
  wf_image img ->
  fst (slitfunc_curved_prepare img ycen tilt shear lambda_sp lambda_sf osample)
  = Ok (dx, a) ->
  r < img_nrows img -> c < img_ncols img ->
  isfinite (get2 zero (ci_im a) r c) = true /\
  (Initializer.rejected img r c = true ->
   get2 1%Z (ci_mask a) r c = 0%Z /\ get2 zero (ci_im a) r c = zero) /\
  (Initializer.rejected img r c = false ->
   get2 1%Z (ci_mask a) r c = 1%Z /\
   get2 zero (ci_im a) r c = Initializer.pixel img r c).
Proof.
  intros Hwf Hprep Hr Hc.
  apply slitfunc_curved_prepare_ok in Hprep as (_ & y & _ & _ & -> & _).
  unfold slitfunc_curved_args. cbn [ci_mask ci_im].
  rewrite (robust_init_mask Hwf), (robust_init_img Hwf), map_fill2.
  rewrite !get2_fill2 by assumption.
  split; [apply cleaned_pixel_finite |].
  unfold Initializer.cleaned_pixel.
  split; intros ->; auto.
Qed.

Lemma kernel_image_is_clean_witness :
  let a := slitfunc_curved_args small_image (robust_init small_image)
             [zero; zero] [0.5; 0.5]%float [zero; zero] 0 2 0 0.125 1 in
  isfinite (get2 zero (ci_im a) 2 1) = true /\
  (Initializer.rejected small_image 2 1 = true ->
   get2 1%Z (ci_mask a) 2 1 = 0%Z /\ get2 zero (ci_im a) 2 1 = zero) /\
  (Initializer.rejected small_image 2 1 = false ->
   get2 1%Z (ci_mask a) 2 1 = 1%Z /\
   get2 zero (ci_im a) 2 1 = Initializer.pixel small_image 2 1).
Proof.
  intros a.
  apply (@kernel_image_is_clean small_image [zero; zero]
           (Scalar 0.5) (Scalar zero) 0%float 0.125%float 1%Z 2%Z a 2 1).
  - exact wf_small_image.
  - reflexivity.
  - unfold img_nrows. simpl. lia.
  - simpl. lia.
Defined.

Lemma astype_c_int_range (x : float) :
  (INT_MIN <= astype_c_int x <= INT_MAX)%Z.
Proof.
  unfold astype_c_int.
  destruct (Prim2SF x) as [s | s | | s m e];
    try (unfold INT_MIN, INT_MAX; lia).
  set (v := if s then (- trunc_mag m e)%Z else trunc_mag m e).
  destruct ((INT_MIN <=? v)%Z && (v <=? INT_MAX)%Z) eqn:Hv.
  - apply andb_true_iff in Hv as [H1 H2].
    apply Z.leb_le in H1, H2. lia.
  - unfold INT_MIN, INT_MAX. lia.
Qed.

Lemma cast_int_fits (n : Z) :
  (INT_MIN <= n <= INT_MAX)%Z -> cast_int n = n.
Proof.
  unfold INT_MIN, INT_MAX, cast_int. intros H.
  rewrite Z.mod_small; lia.
Qed.

Lemma fold_min_spec (t : list Z) (x : Z) :
  In (fold_left Z.min t x) (x :: t) /\
  forall o, In o (x :: t) -> (fold_left Z.min t x <= o)%Z.
Proof.
  revert x. induction t as [|y t IH]; intros x; simpl.
  - split; [auto | intros o [<- | []]; lia].
  - destruct (IH (Z.min x y)) as [Hin Hle]. split.
    + destruct Hin as [Hin | Hin]; [| auto].
      destruct (Z.min_spec x y) as [[_ E] | [_ E]]; rewrite E in *; auto.
    + intros o [<- | [<- | Ho]].
      * specialize (Hle (Z.min x y) (or_introl eq_refl)). lia.
      * specialize (Hle (Z.min x y) (or_introl eq_refl)). lia.
      * apply Hle. now right.
Qed.

(** X11: the lower limit [slitfunc_curved] hands to its kernel is the least
    of the integer trace offsets it hands over: it is one of them, no offset
    is below it, and all of them are C ints. *)
Theorem lower_limit_is_least_offset (img : image) (ycen : list float)
  (tilt shear : curvature) (lambda_sp lambda_sf : float) (osample dx : Z)
  (a : curved_in) :
  fst (slitfunc_curved_prepare img ycen tilt shear lambda_sp lambda_sf osample)
  = Ok (dx, a) ->
  length (ci_ycen_offset a) = img_ncols img /\
  In (ci_y_lower_lim a) (ci_ycen_offset a) /\
  forall o, In o (ci_ycen_offset a) ->
    (INT_MIN <= ci_y_lower_lim a <= o)%Z /\ (o <= INT_MAX)%Z.
Proof.
  intros Hprep.
  apply slitfunc_curved_prepare_ok in Hprep as (Hv & y & Hmin & _ & -> & _).
  apply slitfunc_curved_validate_ok in Hv as ((Hlen & _) & _).
  unfold slitfunc_curved_args. cbn [ci_ycen_offset ci_y_lower_lim].
  assert (Hrange : forall o, In o (map astype_c_int ycen) ->
                             (INT_MIN <= o <= INT_MAX)%Z).
  { intros o Ho. apply in_map_iff in Ho as (x & <- & _).
    apply astype_c_int_range. }
  destruct (map astype_c_int ycen) as [|o0 t] eqn:Hoff; [discriminate |].
  injection Hmin as <-.
  destruct (fold_min_spec t o0) as [Hin Hle].
  rewrite cast_int_fits by (apply Hrange, Hin).
  split; [now rewrite <- Hoff, length_map |].
  split; [exact Hin |].
  intros o Ho. specialize (Hle o Ho).
  pose proof (Hrange _ Hin). pose proof (Hrange _ Ho). lia.
Qed.

Lemma lower_limit_is_least_offset_witness :
  let a := slitfunc_curved_args small_image (robust_init small_image)
             [2.5; 1.25]%float [zero; zero] [zero; zero] 1 0 0 0.125 1 in
  length (ci_ycen_offset a) = img_ncols small_image /\
  In (ci_y_lower_lim a) (ci_ycen_offset a) /\
  forall o, In o (ci_ycen_offset a) ->
    (INT_MIN <= ci_y_lower_lim a <= o)%Z /\ (o <= INT_MAX)%Z.
Proof.
  intros a.
  apply (@lower_limit_is_least_offset small_image [2.5; 1.25]%float
           (Scalar zero) (Scalar zero) 0%float 0.125%float 1%Z 0%Z a).
  reflexivity.
Defined.

(** ** The first guess of the spectrum *)

Lemma np_sum_zeros (n : nat) (f : nat -> float) :
  (forall i, i < n -> f i = zero) -> np_sum (fill1 n f) = zero.
Proof.
  intros H. rewrite fill1_ext with (g := fun _ => zero) by assumption.
  unfold np_sum, fill1. induction (seq 0 n) as [|i l IH]; [reflexivity |].
  simpl. exact IH.
Qed.

Lemma robust_init_sp (img : image) :
  wf_image img -> w_sp (robust_init img) = Initializer.cleaned_spectrum img.
Proof.
  intros Hwf.
  change (w_sp (robust_init img))
    with (sum_axis0 (img_ncols img) (w_img (robust_init img))).
  now rewrite (robust_init_img Hwf), sum_axis0_fill2.
Qed.

(** X12: a column all of whose pixels are rejected (masked, not finite or
    clipped) enters the kernel of the curved path with the spectrum value
    zero; so does every column of an image without rows. *)
Theorem rejected_column_starts_at_zero (img : image) (ycen : list float)
  (tilt shear : curvature) (lambda_sp lambda_sf : float) (osample dx : Z)
  (a : curved_in) (c : nat) :
  wf_image img ->
  fst (slitfunc_curved_prepare img ycen tilt shear lambda_sp lambda_sf osample)
  = Ok (dx, a) ->
  c < img_ncols img ->
  (forall r, r < img_nrows img -> Initializer.rejected img r c = true) ->
  get1 (ci_sp a) c = zero.
Proof.
  intros Hwf Hprep Hc Hrej.
  apply slitfunc_curved_prepare_ok in Hprep as (_ & y & _ & _ & -> & _).
  unfold slitfunc_curved_args. cbn [ci_sp].
  rewrite (robust_init_sp Hwf).
  unfold Initializer.cleaned_spectrum, Initializer.column_sums, get1.
  rewrite nth_fill1 by assumption.
  apply np_sum_zeros. intros r Hr.
  unfold Initializer.cleaned_pixel. now rewrite Hrej.
Qed.

Lemma rejected_column_starts_at_zero_witness :
  get1 (ci_sp (slitfunc_curved_args (one_pixel infinity)
                 (robust_init (one_pixel infinity))
                 [zero] [zero] [zero] 0 0 0 0.125 1)) 0 = zero.
Proof.
  apply (@rejected_column_starts_at_zero (one_pixel infinity) [zero]
           (Scalar zero) (Scalar zero) 0%float 0.125%float 1%Z 0%Z).
  - split; [repeat constructor | exact I].
  - reflexivity.
  - simpl. lia.
  - intros r Hr. unfold img_nrows in Hr. simpl in Hr.
    destruct r; [reflexivity | lia].
Defined.

(** X13: on the straight path a column all of whose pixels are masked out
    enters the kernel with the spectrum value zero. *)
Theorem masked_column_starts_at_zero (img : image) (ycen : list float)
  (lambda_sp lambda_sf : float) (osample : Z) (c : nat) :
  wf_image img -> c < img_ncols img ->
  (forall r, r < img_nrows img -> get2 false (getmaskarray img) r c = true) ->
  get1 (vi_sp (slitfunc_args img ycen lambda_sp lambda_sf osample)) c = zero.
Proof.
  intros Hwf Hc Hmask.
  unfold slitfunc_args. cbn [vi_sp].
  rewrite (getmaskarray_as_fill2 Hwf), (image_as_fill2 Hwf) at 1.
  rewrite zero_where_fill2, sum_axis0_fill2.
  unfold get1. rewrite nth_fill1 by assumption.
  apply np_sum_zeros. intros r Hr. now rewrite Hmask.
Qed.

Lemma masked_column_starts_at_zero_witness :
  let img := {| img_data := [[7; 1]; [9; 2]]%float; img_ncols := 2;
                img_mask := Some [[true; false]; [true; false]];
                img_is_double := true |} in
  get1 (vi_sp (slitfunc_args img [zero; zero] 0 0.125 1)) 0 = zero.
Proof.
  intros img.
  apply (@masked_column_starts_at_zero img [zero; zero]
           0%float 0.125%float 1%Z 0).
  - split; [repeat constructor | split; [reflexivity | repeat constructor]].
  - simpl. lia.
  - intros r Hr. unfold img_nrows in Hr. simpl in Hr.
    destruct r as [|[|r]]; [reflexivity | reflexivity | lia].
Defined.

(** ** The clip *)

Lemma clipped_nan_sigma (img : image) (r c : nat) :
  PrimFloat.is_nan (Initializer.sigma img) = true ->
  Initializer.clipped img r c = false.
Proof.
  intros Hnan. unfold Initializer.clipped.
  rewrite ltb_spec, mul_spec. rewrite is_nan_spec in Hnan.
  destruct (Prim2SF (Initializer.sigma img)); try discriminate.
  unfold SF64mul, SFmul. now destruct (Prim2SF 6).
Qed.

(** X14: when the standard deviation of the residuals is NaN the clip of the
    curved path rejects nothing: the mask and the working image are those of
    the input, with the masked and the non-finite pixels rejected. *)
Theorem nan_deviation_disables_clip (img : image) :
  wf_image img ->
  PrimFloat.is_nan (Initializer.sigma img) = true ->
  w_mask (robust_init img) = mask_nonfinite img /\
  w_img (robust_init img) = zero_where (mask_nonfinite img) (img_data img).
Proof.
  intros Hwf Hnan.
  rewrite (robust_init_mask Hwf), (robust_init_img Hwf).
  rewrite (masked_image_fill2 Hwf), (mask_nonfinite_fill2 Hwf).
  split; apply fill2_ext; intros r c _ _.
  - unfold Initializer.rejected.
    now rewrite (clipped_nan_sigma img r c Hnan), orb_false_r.
  - unfold Initializer.cleaned_pixel, Initializer.masked_pixel,
      Initializer.rejected.
    now rewrite (clipped_nan_sigma img r c Hnan), orb_false_r.
Qed.

Lemma nan_deviation_disables_clip_witness :
  w_mask (robust_init (one_pixel infinity))
  = mask_nonfinite (one_pixel infinity) /\
  w_img (robust_init (one_pixel infinity))
  = zero_where (mask_nonfinite (one_pixel infinity))
      (img_data (one_pixel infinity)).
Proof.
  apply (@nan_deviation_disables_clip (one_pixel infinity)).
  - split; [repeat constructor | exact I].
  - reflexivity.
Defined.

(** ** The two paths on a clean image *)

(** X15: on an image none of whose pixels is rejected, [slitfunc_curved]
    hands its kernel the image as it is, a mask of ones and the column sums as
    the first spectrum: the same image, mask and spectrum that [slitfunc]
    hands to its kernel. *)
Theorem clean_image_same_start (img : image) (ycen : list float)
  (tilt shear : curvature) (lambda_sp lambda_sf : float) (osample dx : Z)
  (a : curved_in) :
  wf_image img ->
  (forall r c, r < img_nrows img -> c < img_ncols img ->
               Initializer.rejected img r c = false) ->
  fst (slitfunc_curved_prepare img ycen tilt shear lambda_sp lambda_sf osample)
  = Ok (dx, a) ->
  let s := slitfunc_args img ycen lambda_sp lambda_sf osample in
  ci_im a = img_data img /\ ci_im a = vi_im s /\
  ci_mask a = vi_mask s /\ ci_sp a = vi_sp s /\
  ci_sp a = sum_axis0 (img_ncols img) (img_data img).
Proof.
  intros Hwf Hclean Hprep s.
  apply slitfunc_curved_prepare_ok in Hprep as (_ & y & _ & _ & -> & _).
  unfold s, slitfunc_curved_args, slitfunc_args.
  cbn [ci_im ci_mask ci_sp vi_im vi_mask vi_sp].
  assert (Hmask : forall r c, r < img_nrows img -> c < img_ncols img ->
                              get2 false (getmaskarray img) r c = false).
  { intros r c Hr Hc. specialize (Hclean r c Hr Hc).
    unfold Initializer.rejected, Initializer.invalid in Hclean.
    now destruct (get2 false (getmaskarray img) r c). }
  assert (Him : w_img (robust_init img) = img_data img).
  { rewrite (robust_init_img Hwf), (image_as_fill2 Hwf) at 1.
    apply fill2_ext. intros r c Hr Hc.
    unfold Initializer.cleaned_pixel. now rewrite Hclean. }
  assert (Hzw : zero_where (getmaskarray img) (img_data img) = img_data img).
  { rewrite (getmaskarray_as_fill2 Hwf), (image_as_fill2 Hwf) at 1.
    rewrite zero_where_fill2, (image_as_fill2 Hwf) at 1.
    apply fill2_ext. intros r c Hr Hc. now rewrite Hmask. }
  assert (Hsp : w_sp (robust_init img)
                = sum_axis0 (img_ncols img) (img_data img)).
  { change (w_sp (robust_init img))
      with (sum_axis0 (img_ncols img) (w_img (robust_init img))).
    now rewrite Him. }
  rewrite Him, Hsp, Hzw. repeat split.
  rewrite (robust_init_mask Hwf), (getmaskarray_as_fill2 Hwf), !map_fill2.
  apply fill2_ext. intros r c Hr Hc. now rewrite Hclean, Hmask.
Qed.

Lemma clean_image_same_start_witness :
  let img := one_pixel 4 in
  let a := slitfunc_curved_args img (robust_init img)
             [zero] [zero] [zero] 0 0 0 0.125 1 in
  let s := slitfunc_args img [zero] 0 0.125 1 in
  ci_im a = img_data img /\ ci_im a = vi_im s /\
  ci_mask a = vi_mask s /\ ci_sp a = vi_sp s /\
  ci_sp a = sum_axis0 (img_ncols img) (img_data img).
Proof.
  intros img a.
  apply (@clean_image_same_start img [zero] (Scalar zero) (Scalar zero)
           0%float 0.125%float 1%Z 0%Z a).
  - split; [repeat constructor | exact I].
  - intros r c Hr Hc. unfold img, img_nrows in Hr. simpl in Hr, Hc.
    destruct r; [| lia]. destruct c; [reflexivity | lia].
  - reflexivity.
Defined.

(** * Properties of the splicing *)

(** ** The walk over the orders *)






(** ** The mask of the orders *)

Lemma index_within (i : Z) (n : nat) :
  (0 <= i < Z.of_nat n)%Z -> Splice.index i n = Splice.Returns (Z.to_nat i).
Proof.
  intros H. unfold Splice.index.
  destruct (Z.leb_spec 0 i); [| lia].
  destruct (Z.ltb_spec i (Z.of_nat n)); [reflexivity | lia].
Qed.

Lemma length_set_row (r : nat) (row : list bool) (mask : list (list bool)) :
  r < length mask -> length (Splice.set_row r row mask) = length mask.
Proof.
  intros Hr. unfold Splice.set_row.
  rewrite length_app, length_firstn. cbn [length].
  rewrite length_skipn. lia.
Qed.

Lemma in_range (a b i : Z) : In i (Splice.range a b) -> (a <= i < b)%Z.
Proof.
  unfold Splice.range. intros H.
  apply in_map_iff in H as (k & <- & Hk). apply in_seq in Hk. lia.
Qed.

Lemma mask_orders_returns (cr : list (Z * Z)) (orders : list Z) :
  (forall i, In i orders -> (0 <= i < Z.of_nat (length cr))%Z) ->
  forall mask, length mask = length cr ->
  exists m, Splice.mask_orders cr mask orders = Splice.Returns m /\
            length m = length mask.
Proof.
  induction orders as [|i orders IH]; intros Hin mask Hlen; simpl.
  - eauto.
  - assert (Hi : (0 <= i < Z.of_nat (length cr))%Z) by (apply Hin; now left).
    rewrite (index_within _ Hi). rewrite <- Hlen in Hi.
    rewrite (index_within _ Hi).
    set (mask' := Splice.set_row _ _ mask).
    assert (Hlen' : length mask' = length mask)
      by (apply length_set_row; lia).
    destruct (IH (fun j Hj => Hin j (or_intror Hj)) mask') as (m & Hm & Hl);
      [congruence |].
    exists m. split; [exact Hm | congruence].
Qed.

Lemma slice_bound_within (i : Z) (n : nat) :
  (0 <= i <= Z.of_nat n)%Z -> Splice.slice_bound i n = Z.to_nat i.
Proof.
  intros H. unfold Splice.slice_bound.
  destruct (Z.ltb_spec i 0); [lia |]. f_equal. lia.
Qed.

(** X17: [splice_orders] cannot work on a part of the orders.  For an order
    range [(first, last)] within the orders that leaves an order out, and
    spectra with at least one column, the mask covers all orders while the
    data are cut to the range, and the masked arrays are refused with
    [MaskError]. *)
Theorem partial_order_range_raises (nord ncol : nat)
  (column_range : option (list (Z * Z))) (first last : Z) :
  (0 <= first <= last)%Z -> (last < Z.of_nat nord)%Z ->
  (0 < first \/ last < Z.of_nat nord - 1)%Z ->
  0 < ncol ->
  match column_range with Some cr => length cr = nord | None => True end ->
  Splice.splice_orders_mask nord ncol column_range (Some (first, last))
  = Splice.Raises Splice.MaskError.
Proof.
  intros Hrange Hlast Hpart Hcol Hcr. unfold Splice.splice_orders_mask.
  set (cr := match column_range with
             | Some cr => cr
             | None => repeat (0%Z, Z.of_nat ncol) nord
             end).
  assert (Hlen : length cr = nord).
  { unfold cr. destruct column_range; [assumption | apply repeat_length]. }
  cbn [fst snd].
  destruct (@mask_orders_returns cr (Splice.range first (last + 1)))
    with (mask := repeat (repeat true ncol) nord) as (m & -> & Hm).
  - intros i Hi. apply in_range in Hi. lia.
  - now rewrite repeat_length.
  - rewrite repeat_length in Hm. unfold Splice.masked_array. rewrite Hm.
    rewrite !slice_bound_within by lia.
    destruct (Nat.eqb_spec (Z.to_nat (last + 1) - Z.to_nat first) nord);
      [lia |].
    destruct (Nat.eqb_spec (nord * ncol) 1); [nia |].
    destruct (Nat.eqb_spec (nord * ncol)
                ((Z.to_nat (last + 1) - Z.to_nat first) * ncol));
      [nia | reflexivity].
Qed.

Lemma partial_order_range_raises_witness :
  Splice.splice_orders_mask 3 4 None (Some (1, 2)%Z)
  = Splice.Raises Splice.MaskError.
Proof.
  apply (@partial_order_range_raises 3 4 None 1 2); try lia; exact I.
Defined.

(** The mask once the orders below [a] have been given their column range. *)
Lemma set_row_next (nord : nat) (row : nat -> list bool) (blank : list bool)
  (a : nat) :
  a < nord ->
  Splice.set_row a (row a)
    (fill1 nord (fun r => if (r <? a)%nat then row r else blank))
  = fill1 nord (fun r => if (r <? S a)%nat then row r else blank).
Proof.
  intros Ha. unfold Splice.set_row.
  set (M := fill1 nord (fun r => if (r <? a)%nat then row r else blank)).
  assert (HM : length M = nord) by apply length_fill1.
  apply (nth_ext _ _ [] []).
  - rewrite length_app, length_firstn. cbn [length].
    rewrite length_skipn, length_fill1. lia.
  - intros i Hi.
    rewrite length_app, length_firstn in Hi. cbn [length] in Hi.
    rewrite length_skipn in Hi.
    rewrite (nth_fill1 _ []) by lia.
    destruct (Nat.lt_trichotomy i a) as [Hlt | [-> | Hgt]].
    + rewrite app_nth1 by (rewrite length_firstn; lia).
      rewrite nth_firstn. destruct (Nat.ltb_spec i a); [| lia].
      unfold M. rewrite (nth_fill1 _ []) by lia.
      destruct (Nat.ltb_spec i a); [| lia].
      destruct (Nat.ltb_spec i (S a)); [reflexivity | lia].
    + rewrite app_nth2 by (rewrite length_firstn; lia).
      rewrite length_firstn.
      replace (a - Nat.min a (length M)) with 0 by lia. cbn [nth].
      destruct (Nat.ltb_spec a (S a)); [reflexivity | lia].
    + rewrite app_nth2 by (rewrite length_firstn; lia).
      rewrite length_firstn.
      replace (i - Nat.min a (length M)) with (S (i - S a)) by lia.
      cbn [nth]. rewrite nth_skipn.
      replace (S a + (i - S a)) with i by lia.
      unfold M. rewrite (nth_fill1 _ []) by lia.
      destruct (Nat.ltb_spec i a); [lia |].
      destruct (Nat.ltb_spec i (S a)); [lia | reflexivity].
Qed.

Lemma mask_orders_all (cr : list (Z * Z)) (ncol : nat) :
  let nord := length cr in
  let blank := repeat true ncol in
  let row := fun r => Splice.assign_slice (fst (nth r cr (0%Z, 0%Z)))
                        (snd (nth r cr (0%Z, 0%Z))) false blank in
  forall n a, a + n = nord ->
  Splice.mask_orders cr
    (fill1 nord (fun r => if (r <? a)%nat then row r else blank))
    (map (fun k => (0 + Z.of_nat k)%Z) (seq a n))
  = Splice.Returns (fill1 nord (fun r => if (r <? nord)%nat then row r
                                         else blank)).
Proof.
  intros nord blank row n.
  induction n as [|n IH]; intros a Ha.
  - replace a with nord by lia. reflexivity.
  - cbn [seq map Splice.mask_orders].
    rewrite length_fill1. change (length cr) with nord.
    rewrite !(@index_within (0 + Z.of_nat a) nord) by lia.
    replace (Z.to_nat (0 + Z.of_nat a)) with a by lia.
    rewrite (nth_fill1 _ []) by lia.
    destruct (Nat.ltb_spec a a); [lia |].
    change (Splice.assign_slice (fst (nth a cr (0%Z, 0%Z)))
              (snd (nth a cr (0%Z, 0%Z))) false blank) with (row a).
    rewrite (@set_row_next nord row blank a) by lia.
    apply IH. lia.
Qed.

Lemma nth_assign_slice (lo hi : Z) (ncol c : nat) :
  (0 <= lo)%Z -> (0 <= hi)%Z -> c < ncol ->
  nth c (Splice.assign_slice lo hi false (repeat true ncol)) true
  = negb ((lo <=? Z.of_nat c)%Z && (Z.of_nat c <? hi)%Z).
Proof.
  intros Hlo Hhi Hc. unfold Splice.assign_slice.
  rewrite repeat_length.
  change (map ?f (seq 0 ncol)) with (fill1 ncol f).
  rewrite nth_fill1 by assumption.
  rewrite (nth_indep _ false true) by now rewrite repeat_length.
  rewrite nth_repeat. unfold Splice.slice_bound.
  destruct (Z.ltb_spec lo 0); [lia |]. destruct (Z.ltb_spec hi 0); [lia |].
  destruct (Nat.leb_spec (Z.to_nat (Z.min lo (Z.of_nat ncol))) c);
    destruct (Z.leb_spec lo (Z.of_nat c)); try lia;
    destruct (Nat.ltb_spec c (Z.to_nat (Z.min hi (Z.of_nat ncol))));
    destruct (Z.ltb_spec (Z.of_nat c) hi); try lia; reflexivity.
Qed.

(** X18: when [splice_orders] works on all orders, the column ranges become
    the mask of its arrays: the entry of column [c] in order [r] is unmasked
    exactly when [c] lies in the column range of that order (bounds not
    negative); with the default column range nothing is masked. *)
Theorem column_ranges_become_mask (nord ncol : nat)
  (column_range : option (list (Z * Z))) (order_range : option (Z * Z)) :
  let cr := match column_range with
            | Some cr => cr
            | None => repeat (0%Z, Z.of_nat ncol) nord
            end in
  length cr = nord ->
  (forall lo hi, In (lo, hi) cr -> (0 <= lo)%Z /\ (0 <= hi)%Z) ->
  match order_range with
  | Some r => r = (0%Z, (Z.of_nat nord - 1)%Z)
  | None => True
  end ->
  exists mask,
    Splice.splice_orders_mask nord ncol column_range order_range
    = Splice.Returns mask /\
    length mask = nord /\
    forall r c, r < nord -> c < ncol ->
      get2 true mask r c
      = negb ((fst (nth r cr (0%Z, 0%Z)) <=? Z.of_nat c)%Z
              && (Z.of_nat c <? snd (nth r cr (0%Z, 0%Z)))%Z).
Proof.
  intros cr Hlen Hpos Hor. unfold Splice.splice_orders_mask. fold cr.
  assert (Hrange : (match order_range with
                    | Some r => r
                    | None => (0%Z, (Z.of_nat nord - 1)%Z)
                    end) = (0%Z, (Z.of_nat nord - 1)%Z))
    by (destruct order_range; auto).
  rewrite Hrange. cbn [fst snd]. unfold Splice.range.
  replace (Z.to_nat (Z.of_nat nord - 1 + 1 - 0)) with nord by lia.
  pose proof (@mask_orders_all cr ncol nord 0) as Hall.
  rewrite Hlen in Hall. cbn zeta in Hall.
  assert (Hblank : fill1 nord (fun r => if (r <? 0)%nat
                     then Splice.assign_slice (fst (nth r cr (0%Z, 0%Z)))
                            (snd (nth r cr (0%Z, 0%Z))) false
                            (repeat true ncol)
                     else repeat true ncol)
                   = repeat (repeat true ncol) nord).
  { apply (nth_ext _ _ [] []).
    - now rewrite length_fill1, repeat_length.
    - intros i Hi. rewrite length_fill1 in Hi.
      rewrite (nth_fill1 _ []) by assumption.
      rewrite (nth_indep _ [] (repeat true ncol))
        by now rewrite repeat_length.
      now rewrite nth_repeat. }
  rewrite Hblank in Hall. rewrite Hall by lia.
  unfold Splice.masked_array. rewrite length_fill1.
  rewrite !slice_bound_within by lia.
  replace (Z.to_nat (Z.of_nat nord - 1 + 1) - Z.to_nat 0) with nord by lia.
  rewrite Nat.eqb_refl.
  eexists. split; [reflexivity |]. split; [apply length_fill1 |].
  intros r c Hr Hc. unfold get2.
  rewrite (nth_fill1 _ []) by assumption.
  destruct (Nat.ltb_spec r nord); [| lia].
  assert (Hin : In (nth r cr (0%Z, 0%Z)) cr) by (apply nth_In; lia).
  destruct (nth r cr (0%Z, 0%Z)) as [lo hi]. cbn [fst snd].
  destruct (Hpos lo hi Hin). now apply nth_assign_slice.
Qed.

Lemma column_ranges_become_mask_witness :
  exists mask,
    Splice.splice_orders_mask 2 3 (Some [(1, 3); (0, 2)]%Z) None
    = Splice.Returns mask /\
    length mask = 2 /\
    forall r c, r < 2 -> c < 3 ->
      get2 true mask r c
      = negb ((fst (nth r [(1, 3); (0, 2)]%Z (0%Z, 0%Z)) <=? Z.of_nat c)%Z
              && (Z.of_nat c <? snd (nth r [(1, 3); (0, 2)]%Z (0%Z, 0%Z)))%Z).
Proof.
  apply (@column_ranges_become_mask 2 3 (Some [(1, 3); (0, 2)]%Z) None).
  - reflexivity.
  - intros lo hi [[= <- <-] | [[= <- <-] | []]]; lia.
  - exact I.
Defined.

(** * Properties of the HARPS instrument *)

Module HarpsFacts.

Import Stdlib.Strings.String.
Local Open Scope string_scope.

Lemma load_info_has_no_modes_id :
  Harps.getitem Harps.load_info "modes_id"
  = Harps.Raises (Harps.KeyError "modes_id").
Proof. reflexivity. Qed.

(** X19: [HARPS.sort_files] never returns its lists of files.  The dictionary
    of [load_info] has no entry [modes_id]: once the night is parsed, the call
    raises [KeyError] for the modes [blue] and [red], and [IndexError] for
    any other mode, whatever the files and the headers are. *)
Theorem sort_files_always_raises (date lists : Type)
  (parse_night : string -> Harps.outcome date)
  (select : list string -> string -> date -> Harps.value -> string ->
            Harps.outcome lists)
  (files : list string) (target night mode fiber : string) :
  exists e,
    Harps.sort_files parse_night select files target night mode fiber
    = Harps.Raises e /\
    forall d, parse_night night = Harps.Returns d ->
      e = if (String.eqb "blue" mode || String.eqb "red" mode)%bool
          then Harps.KeyError "modes_id"
          else Harps.IndexError.
Proof.
  unfold Harps.sort_files.
  destruct (parse_night night) as [d | e] eqn:Hnight; cbn [Harps.bind].
  - change (Harps.getitem Harps.load_info "modes")
      with (Harps.Returns (Harps.Seq [Harps.Str "blue"; Harps.Str "red"]%list)).
    cbn [Harps.bind Harps.entries Harps.indices_of].
    rewrite load_info_has_no_modes_id.
    destruct (String.eqb "blue" mode), (String.eqb "red" mode);
      cbn [Harps.first Harps.bind orb];
      eexists; (split; [reflexivity | intros d' _; reflexivity]).
  - exists e. split; [reflexivity | discriminate].
Qed.

End HarpsFacts.
